(** * tango-gateway: the GIOP frame reader and the forwarder registry

    A shallow embedding of [tangogateway.py]: the relay loops
    [forward_pipe] and [inspect_pipe], the frame reader [read_frame], and
    the registry [loop.forward_dict] that maps a backend (host, port) to a
    locally bound listener.

    Conventions of the embedding.
    - Python [bytes] are [list byte]; a Python [str] is represented by its
      UTF-8 octets, read as a Rocq [string].
    - Values whose Python type is only known at run time (the fields of
      the IOR named tuple, the components of a registry tuple) are [pyval].
    - A coroutine is a state transformer that ends in an [outcome]: it
      returns, raises, or stays suspended for ever.
    - The tuple of lines 68-71 lacks the comma after its first component;
      it is read as the tuple of three components that line 75 unpacks.
    - Line 49 of [read_frame] tests the bare name [message_type], which
      neither the function nor the module binds: the test raises
      NameError, and [read_frame] is embedded with that outcome.  Lines
      50-81 are never reached through [read_frame]; what they compute is
      embedded block by block ([ior_key], [bind_and_store] and the
      passes, [patch_ior], [emit]) and stated of these blocks. *)
From Stdlib Require Import ZArith NArith Lia List String.
From Stdlib Require Import Strings.Byte.
From stdpp Require Import base option list gmap strings.

Local Open Scope N_scope.

Abbreviation bytes := (list byte).

(** ** Python values and exceptions *)

(** A value of one of the two run-time types the gateway stores in an IOR
    field or in a registry tuple. *)
Inductive pyval : Type :=
  | PInt (z : Z)
  | PBytes (b : bytes).

Inductive exn : Type :=
  | MalformedHeader      (* giop.unpack_giop_header rejects its input *)
  | MalformedReply       (* giop.unpack_reply_header rejects its input *)
  | TruncatedFrame       (* error kind of the specification, section 7 *)
  | NameError            (* a name that is bound nowhere is read *)
  | TypeError
  | UnicodeDecodeError
  | OSError              (* the listener cannot be bound *)
  | ConnectionResetError. (* stored on a reader by its transport *)

Definition result (A : Type) : Type := exn + A.

(** What running a coroutine to its end gives: a value, an exception, or
    nothing because it waits for an event that never comes. *)
Inductive outcome (A : Type) : Type :=
  | Ret (a : A)
  | Raise (e : exn)
  | Blocked.
Arguments Ret {A} a.
Arguments Raise {A} e.
Arguments Blocked {A}.

#[global] Instance byte_eq_dec : EqDecision byte.
Proof.
  intros x y. destruct (Byte.eqb x y) eqn:E.
  - left. now apply Byte.byte_dec_bl.
  - right. now apply Byte.eqb_false.
Defined.

Definition byte_of_N (n : N) : byte :=
  match Byte.of_N (n mod 256) with
  | Some b => b
  | None => x00
  end.

Lemma byte_of_to_N (b : byte) : byte_of_N (Byte.to_N b) = b.
Proof.
  unfold byte_of_N. rewrite N.mod_small.
  - now rewrite Byte.of_to_N.
  - pose proof (Byte.to_N_bounded b). lia.
Qed.

Lemma to_N_byte_of_N (n : N) : n < 256 -> Byte.to_N (byte_of_N n) = n.
Proof.
  intros Hn. unfold byte_of_N. rewrite N.mod_small by exact Hn.
  destruct (Byte.of_N n) as [b|] eqn:E.
  - now apply Byte.to_of_N.
  - apply Byte.of_N_None_iff in E. lia.
Qed.

#[global] Program Instance byte_countable : Countable byte :=
  inj_countable' Byte.to_N byte_of_N _.
Next Obligation. exact byte_of_to_N. Qed.

#[global] Instance pyval_eq_dec : EqDecision pyval.
Proof. solve_decision. Defined.

Definition pyval_to_sum (v : pyval) : Z + bytes :=
  match v with PInt z => inl z | PBytes b => inr b end.
Definition pyval_of_sum (s : Z + bytes) : pyval :=
  match s with inl z => PInt z | inr b => PBytes b end.

#[global] Program Instance pyval_countable : Countable pyval :=
  inj_countable' pyval_to_sum pyval_of_sum _.
Next Obligation. now intros []. Qed.

#[global] Instance exn_eq_dec : EqDecision exn.
Proof. solve_decision. Defined.

(** ** [bytes.decode()] and [str.encode()] *)

Definition in_range (lo hi : N) (b : byte) : bool :=
  (lo <=? Byte.to_N b) && (Byte.to_N b <=? hi).

Definition continuation : byte -> bool := in_range 128 191.

(** The strict UTF-8 acceptor of [bytes.decode()]: shortest forms only, no
    surrogates, nothing above U+10FFFF. *)
Fixpoint utf8_valid (bs : bytes) : bool :=
  match bs with
  | [] => true
  | b0 :: r =>
    if in_range 0 127 b0 then utf8_valid r
    else if in_range 194 223 b0 then
      match r with
      | b1 :: r1 => continuation b1 && utf8_valid r1
      | _ => false
      end
    else if in_range 224 239 b0 then
      match r with
      | b1 :: b2 :: r2 =>
        (if in_range 224 224 b0 then in_range 160 191 b1
         else if in_range 237 237 b0 then in_range 128 159 b1
         else continuation b1)
        && continuation b2 && utf8_valid r2
      | _ => false
      end
    else if in_range 240 244 b0 then
      match r with
      | b1 :: b2 :: b3 :: r3 =>
        (if in_range 240 240 b0 then in_range 144 191 b1
         else if in_range 244 244 b0 then in_range 128 143 b1
         else continuation b1)
        && continuation b2 && continuation b3 && utf8_valid r3
      | _ => false
      end
    else false
  end.

(** [b.decode()] *)
Definition decode (b : bytes) : result string :=
  if utf8_valid b then inr (string_of_list_byte b) else inl UnicodeDecodeError.

(** [s.encode()] *)
Definition encode (s : string) : bytes := list_byte_of_string s.

(** [b[:-1]] *)
Definition all_but_last (b : bytes) : bytes := take (length b - 1)%nat b.

(** ** The [giop] module

    [giop.py] is not among the sources.  Its header codec is modelled from
    the specification; its reply and IOR codec is a parameter of the
    development ([Codec] below), typed by the way lines 53, 57 and 78
    of [read_frame] call it. *)
Module giop.

(** The parsed 12-octet GIOP header.  The magic is a constant of the
    format and is not a field. *)
Record GiopHeader : Type := {
  major : byte;
  minor : byte;
  flags : byte;
  message_type : byte;
  size : N
}.

(** [header._replace(size=n)] *)
Definition replace_size (h : GiopHeader) (n : N) : GiopHeader :=
  {| major := major h; minor := minor h; flags := flags h;
     message_type := message_type h; size := n |}.

Definition magic : bytes := ["G"; "I"; "O"; "P"]%byte.

(** [giop.MessageType.Reply] and [giop.ReplyStatus.NoException] *)
Definition Reply : byte := x01.
Definition NoException : N := 0.

(** Flags bit 0: 0 is big-endian, 1 is little-endian. *)
Definition little_endian (h_flags : byte) : bool :=
  N.testbit (Byte.to_N h_flags) 0.

(** A 4-octet unsigned integer; the value is taken modulo 2^32. *)
Definition encode_u32 (le : bool) (n : N) : bytes :=
  let b0 := byte_of_N (n / 16777216) in
  let b1 := byte_of_N (n / 65536) in
  let b2 := byte_of_N (n / 256) in
  let b3 := byte_of_N n in
  if le then [b3; b2; b1; b0] else [b0; b1; b2; b3].

Definition decode_u32 (le : bool) (a b c d : byte) : N :=
  let v (w x y z : byte) :=
    ((Byte.to_N w * 256 + Byte.to_N x) * 256 + Byte.to_N y) * 256
    + Byte.to_N z in
  if le then v d c b a else v a b c d.

(** Modelled from the spec: [giop.unpack_giop_header], which is not under
    src/.  Section 4.1: it reads the first 12 octets, fails with
    MalformedHeader when fewer than 12 are given or the magic is not
    "GIOP", reads the size in the byte order of flags bit 0, and returns
    the message type as it is. *)
Definition unpack_giop_header (raw : bytes) : result GiopHeader :=
  match raw with
  | m0 :: m1 :: m2 :: m3 :: ma :: mi :: fl :: mt :: s0 :: s1 :: s2 :: s3 :: _ =>
    if decide ([m0; m1; m2; m3] = magic) then
      inr {| major := ma; minor := mi; flags := fl; message_type := mt;
             size := decode_u32 (little_endian fl) s0 s1 s2 s3 |}
    else inl MalformedHeader
  | _ => inl MalformedHeader
  end.

Definition pack_header (h : GiopHeader) : bytes :=
  magic ++ [major h; minor h; flags h; message_type h]
        ++ encode_u32 (little_endian (flags h)) (size h).

(** Modelled from the spec: [giop.pack_giop], which is not under src/.
    Section 4.1: the caller recomputes the size field; [pack_giop] writes
    the header as it is given, followed by the body. *)
Definition pack_giop (h : GiopHeader) (body : bytes) : bytes :=
  pack_header h ++ body.

(** The unpacked reply header, as far as [read_frame] looks at it. *)
Record ReplyHeader : Type := {
  request_id : N;
  reply_status : N
}.

(** The IOR named tuple.  [read_frame] reads and replaces [host] and
    [port]; whatever else the tuple carries is kept in [profile]. *)
Record IOR : Type := {
  host : pyval;
  port : pyval;
  profile : bytes
}.

(** [ior._replace(host=h, port=p)] *)
Definition replace_host_port (i : IOR) (h p : pyval) : IOR :=
  {| host := h; port := p; profile := profile i |}.

(** The three functions of [giop.py] that work on the payload of a Reply.
    They are not under src/, and the lines that call them stand after
    line 49. *)
Class Codec : Type := {
  unpack_reply_header : bytes -> result ReplyHeader;
  find_ior : bytes -> option (IOR * nat * nat);
  repack_ior : bytes -> IOR -> nat -> nat -> result bytes
}.

End giop.

(** ** asyncio streams

    [asyncio.StreamReader]: [feed_data] appends to the buffer, [feed_eof]
    sets the end-of-file flag, [set_exception] stores an exception.  The
    events still to come on the connection are [incoming]; the event loop
    delivers them while the reading coroutine waits.  Whatever the results
    of the successive [read]s on a connection are, some [incoming] gives
    them: one [FeedData] for each non-empty result, [FeedEof] for the
    empty one. *)
Inductive event : Type :=
  | FeedData (data : bytes)
  | FeedEof
  | SetException (e : exn).

Record StreamReader : Type := {
  buffer : bytes;
  eof : bool;
  exception : option exn;
  incoming : list event
}.

(** [reader.at_eof()] *)
Definition at_eof (r : StreamReader) : bool :=
  eof r && bool_decide (buffer r = []).

(** The wait inside [read] on an empty buffer: events are delivered until
    one wakes the reader.  [feed_data] ignores empty data.  When nothing is
    left to come the coroutine stays suspended. *)
Fixpoint wait_for_data (evs : list event) : outcome unit * StreamReader :=
  match evs with
  | [] =>
    (Blocked, {| buffer := []; eof := false; exception := None; incoming := [] |})
  | FeedData [] :: evs' => wait_for_data evs'
  | FeedData data :: evs' =>
    (Ret tt, {| buffer := data; eof := false; exception := None; incoming := evs' |})
  | FeedEof :: evs' =>
    (Ret tt, {| buffer := []; eof := true; exception := None; incoming := evs' |})
  | SetException e :: evs' =>
    (Raise e, {| buffer := []; eof := false; exception := Some e; incoming := evs' |})
  end.

Definition take_buffer (n : N) (r : StreamReader) : outcome bytes * StreamReader :=
  (Ret (take (N.to_nat n) (buffer r)),
   {| buffer := drop (N.to_nat n) (buffer r); eof := eof r;
      exception := exception r; incoming := incoming r |}).

(** [reader.read(n)] for [n >= 0]: at most [n] octets, as soon as at least
    one is there; no octet at end of file. *)
Definition read (n : N) (r : StreamReader) : outcome bytes * StreamReader :=
  match exception r with
  | Some e => (Raise e, r)
  | None =>
    if n =? 0 then (Ret [], r)
    else if bool_decide (buffer r = []) && negb (eof r) then
      match wait_for_data (incoming r) with
      | (Ret _, r') => take_buffer n r'
      | (Raise e, r') => (Raise e, r')
      | (Blocked, r') => (Blocked, r')
      end
    else take_buffer n r
  end.

(** The write side of a connection: what has been written, and whether
    [close] was called. *)
Record StreamWriter : Type := {
  written : bytes;
  closed : bool
}.

(** ** The event loop and its registry *)

(** A listener made by [asyncio.start_server]: the backend its handler
    [partial(forward, host=host, port=port)] connects to, the address it
    was asked to bind, and what [sockets[0].getsockname()] returns. *)
Record Server : Type := {
  server_id : nat;
  forward_to : string * pyval;
  bound_host : string;
  sockname : string * Z
}.

#[global] Instance Server_eq_dec : EqDecision Server.
Proof. solve_decision. Defined.

(** The attributes [run_server] hangs on the loop, and the operating
    system behind it: the listeners made so far and the outcome of each
    coming bind on port 0 ([Some p]: bound to port [p]; [None], or nothing
    left: the bind fails). *)
Record Loop : Type := {
  bind_address : string;
  forward_dict : gmap (string * pyval) (Server * pyval * pyval);
  servers : list Server;
  os_binds : list (option Z)
}.

(** [asyncio.start_server(handler, host, 0, loop=loop)].  The bind address
    is an IP literal (specification, section 6), so [getsockname] reports
    it as it was given, with the port the operating system chose. *)
Definition start_server (target : string * pyval) (bind_host : string) (lp : Loop)
  : outcome Server * Loop :=
  match os_binds lp with
  | Some p :: rest =>
    let server := {| server_id := length (servers lp); forward_to := target;
                     bound_host := bind_host; sockname := (bind_host, p) |} in
    (Ret server,
     {| bind_address := bind_address lp; forward_dict := forward_dict lp;
        servers := servers lp ++ [server]; os_binds := rest |})
  | None :: rest =>
    (Raise OSError,
     {| bind_address := bind_address lp; forward_dict := forward_dict lp;
        servers := servers lp; os_binds := rest |})
  | [] => (Raise OSError, lp)
  end.

(** Lines 68-71: the tuple stored for a new listener, in the order the
    source builds it. *)
Definition make_value (server : Server) : Server * pyval * pyval :=
  (server,
   PInt (snd (sockname server)),
   PBytes (encode (fst (sockname server)) ++ [x00])).

(** Line 72: [loop.forward_dict[key] = value] *)
Definition store (key : string * pyval) (value : Server * pyval * pyval) (lp : Loop)
  : Loop :=
  {| bind_address := bind_address lp;
     forward_dict := <[key := value]> (forward_dict lp);
     servers := servers lp; os_binds := os_binds lp |}.

(** [run_server]: the loop before the first connection. *)
Definition initial_loop (bind : string) (os : list (option Z)) : Loop :=
  {| bind_address := bind; forward_dict := ∅; servers := []; os_binds := os |}.

(** ** Coroutines *)

(** What one direction of a connection works on. *)
Record state : Type := {
  reader : StreamReader;
  writer : StreamWriter;
  loop : Loop
}.

Definition coroutine (A : Type) : Type := state -> outcome A * state.

#[global] Instance coroutine_ret : MRet coroutine := fun A a s => (Ret a, s).

#[global] Instance coroutine_bind : MBind coroutine := fun A B f m s =>
  match m s with
  | (Ret a, s') => f a s'
  | (Raise e, s') => (Raise e, s')
  | (Blocked, s') => (Blocked, s')
  end.

Definition raise {A : Type} (e : exn) : coroutine A := fun s => (Raise e, s).

Definition of_result {A : Type} (r : result A) : coroutine A :=
  match r with
  | inr a => mret a
  | inl e => raise e
  end.

(** An operation on the reader, run on the state of the connection. *)
Definition on_reader {A : Type} (op : StreamReader -> outcome A * StreamReader)
  : coroutine A := fun s =>
  let (o, r') := op (reader s) in
  (o, {| reader := r'; writer := writer s; loop := loop s |}).

(** An operation on the loop. *)
Definition on_loop {A : Type} (op : Loop -> outcome A * Loop) : coroutine A :=
  fun s =>
  let (o, lp') := op (loop s) in
  (o, {| reader := reader s; writer := writer s; loop := lp' |}).

(** [writer.write(data)] *)
Definition write (data : bytes) : coroutine unit := fun s =>
  (Ret tt,
   {| reader := reader s;
      writer := {| written := written (writer s) ++ data;
                   closed := closed (writer s) |};
      loop := loop s |}).

(** [writer.close()] *)
Definition close (s : state) : state :=
  {| reader := reader s;
     writer := {| written := written (writer s); closed := true |};
     loop := loop s |}.

(** A reader on which nothing has arrived yet; [evs] is what will. *)
Definition fresh_reader (evs : list event) : StreamReader :=
  {| buffer := []; eof := false; exception := None; incoming := evs |}.

(** ** [read_frame] *)

(** Lines 39-49.  The two reads and the unpacking of the header are as
    written.  Line 49 then reads [message_type]: the name is assigned
    nowhere in the function and is no global of the module, so Python
    raises NameError there, whatever the frame is. *)
Definition read_frame : coroutine bytes :=
  raw_header ← on_reader (read 12);
  if bool_decide (raw_header = []) then mret raw_header else
  header ← of_result (giop.unpack_giop_header raw_header);
  raw_data ← on_reader (read (giop.size header));
  let raw_frame := raw_header ++ raw_data in
  raise NameError.

(** ** The lines after line 49, block by block *)

(** Line 61: [ior.host[:-1].decode()] *)
Definition host_name (v : pyval) : result string :=
  match v with
  | PBytes b => decode (all_but_last b)
  | PInt _ => inl TypeError
  end.

(** Lines 61-62: the registry key of an IOR. *)
Definition ior_key (ior : giop.IOR) : result (string * pyval) :=
  match host_name (giop.host ior) with
  | inr host => inr (host, giop.port ior)
  | inl e => inl e
  end.

(** Lines 65-72, from the point where [start_server] is awaited: the
    listener is made, then the tuple is stored. *)
Definition bind_and_store (key : string * pyval) (lp : Loop) : outcome unit * Loop :=
  match start_server key (bind_address lp) lp with
  | (Ret server, lp') => (Ret tt, store key (make_value server) lp')
  | (Raise e, lp') => (Raise e, lp')
  | (Blocked, lp') => (Blocked, lp')
  end.

(** Lines 75-76: the tuple is unpacked as (server, host, port) and both
    fields of the IOR are replaced. *)
Definition patch_ior (ior : giop.IOR) (value : Server * pyval * pyval) : giop.IOR :=
  let '(server, host, port) := value in
  giop.replace_host_port ior host port.

(** Lines 79-81: the frame that is returned once the body is repacked. *)
Definition emit (header : giop.GiopHeader) (raw_reply_header raw_body : bytes)
  : bytes :=
  let raw_data := raw_reply_header ++ raw_body in
  let header := giop.replace_size header (N.of_nat (length raw_data)) in
  giop.pack_giop header raw_body.

(** ** Several connections on one loop

    Every connection runs its own [inspect_pipe], and all of them share
    [loop.forward_dict].  A coroutine gives way to the others only where it
    waits: in lines 64-75 that is the [yield from asyncio.start_server] of
    line 66.  So a pass through these lines is one atomic step when the key
    is known ([Call] returns the stored tuple at once), and two when it is
    not: [Call] tests the registry and suspends, [Resume] lets the [i]-th
    suspended pass bind, store and return. *)
Inductive pass_event : Type :=
  | Call (key : string * pyval)
  | Resume (i : nat).

Record passes : Type := {
  shared_loop : Loop;
  suspended : list (string * pyval);
  returned : list ((string * pyval) * (Server * pyval * pyval))
}.

Definition finish (key : string * pyval) (lp : Loop) (st : passes) (i : nat) : passes :=
  {| shared_loop := lp;
     suspended := delete i (suspended st);
     returned :=
       match forward_dict lp !! key with
       | Some value => returned st ++ [(key, value)]
       | None => returned st
       end |}.

Definition pass_step (st : passes) (ev : pass_event) : passes :=
  match ev with
  | Call key =>
    match forward_dict (shared_loop st) !! key with
    | Some value =>
      {| shared_loop := shared_loop st; suspended := suspended st;
         returned := returned st ++ [(key, value)] |}
    | None =>
      {| shared_loop := shared_loop st; suspended := suspended st ++ [key];
         returned := returned st |}
    end
  | Resume i =>
    match suspended st !! i with
    | None => st
    | Some key =>
      match bind_and_store key (shared_loop st) with
      | (Ret _, lp') => finish key lp' st i
      | (_, lp') =>
        {| shared_loop := lp'; suspended := delete i (suspended st);
           returned := returned st |}
      end
    end
  end.

Definition run_passes (evs : list pass_event) (st : passes) : passes :=
  fold_left pass_step evs st.

Definition start_passes (lp : Loop) : passes :=
  {| shared_loop := lp; suspended := []; returned := [] |}.

(** The listeners that forward to a given backend. *)
Definition listeners_for (key : string * pyval) (lp : Loop) : list Server :=
  filter (fun server => forward_to server = key) (servers lp).

(** A port the operating system can give to a listener. *)
Definition assigned_port (o : option Z) : Prop :=
  forall p, o = Some p -> (0 < p < 65536)%Z.

(** ** The relay loops *)

(** [while not reader.at_eof(): body], where [body] answers whether the
    loop goes on ([false] is [break]).  [None]: the iterations allowed by
    [fuel] did not end the loop. *)
Fixpoint while_not_at_eof (fuel : nat) (body : coroutine bool) (s : state)
  : option (outcome unit * state) :=
  match fuel with
  | O => None
  | S fuel' =>
    if at_eof (reader s) then Some (Ret tt, s)
    else
      match body s with
      | (Ret true, s') => while_not_at_eof fuel' body s'
      | (Ret false, s') => Some (Ret tt, s')
      | (Raise e, s') => Some (Raise e, s')
      | (Blocked, s') => Some (Blocked, s')
      end
  end.

(** [with closing(writer): block]: the writer is closed when the block is
    left, by its end or by an exception. *)
Definition closing (block : state -> option (outcome unit * state)) (s : state)
  : option (outcome unit * state) :=
  match block s with
  | Some (Ret tt, s') => Some (Ret tt, close s')
  | Some (Raise e, s') => Some (Raise e, close s')
  | Some (Blocked, s') => Some (Blocked, s')
  | None => None
  end.

(** What is left to come on a reader; every turn of a relay loop that
    goes on makes it smaller. *)
Definition event_size (ev : event) : nat :=
  match ev with
  | FeedData data => S (length data)
  | _ => 1%nat
  end.

Definition reader_size (r : StreamReader) : nat :=
  (length (buffer r) + sum_list (map event_size (incoming r)))%nat.

(** Lines 16-17 *)
Definition forward_pipe_body : coroutine bool :=
  data ← on_reader (read 4096);
  _ ← write data;
  mret true.

Definition forward_pipe (s : state) : option (outcome unit * state) :=
  closing (while_not_at_eof (S (reader_size (reader s))) forward_pipe_body) s.

(** Lines 32-35 *)
Definition inspect_pipe_body : coroutine bool :=
  data ← read_frame;
  if bool_decide (data = []) then mret false else
  _ ← write data;
  mret true.

Definition inspect_pipe (s : state) : option (outcome unit * state) :=
  closing (while_not_at_eof (S (reader_size (reader s))) inspect_pipe_body) s.

(** The octets still to be read from a reader, in order. *)
Definition event_data (ev : event) : bytes :=
  match ev with
  | FeedData data => data
  | _ => []
  end.

Definition pending (r : StreamReader) : bytes :=
  buffer r ++ concat (map event_data (incoming r)).

(** The frame read in state [s]: a non-empty header that unpacks to
    [header], and the payload [raw_data] the second read returns. *)
Definition reads_frame (s : state) (raw_header : bytes)
    (header : giop.GiopHeader) (raw_data : bytes) (s' : state) : Prop :=
  exists s1,
    on_reader (read 12) s = (Ret raw_header, s1)
    /\ raw_header <> []
    /\ giop.unpack_giop_header raw_header = inr header
    /\ on_reader (read (giop.size header)) s1 = (Ret raw_data, s').

(** The loops the gateway can be in: [run_server] starts with an empty
    registry, on an operating system that gives out ports between 1 and
    65535; then frames are read on the connections, and passes through
    lines 64-75 overlap as the connections take turns. *)
Inductive reachable : Loop -> Prop :=
  | reach_run_server (bind : string) (os : list (option Z)) :
      Forall assigned_port os -> reachable (initial_loop bind os)
  | reach_read_frame (s s' : state) (o : outcome bytes) :
      reachable (loop s) -> read_frame s = (o, s') -> reachable (loop s')
  | reach_pass (st : passes) (ev : pass_event) :
      reachable (shared_loop st) -> reachable (shared_loop (pass_step st ev)).

(** ** Predicates of the statements *)

(** What holds of every tuple in the registry. *)
Definition entry_ok (lp : Loop) (value : Server * pyval * pyval) : Prop :=
  let '(server, port, host) := value in
  (exists p, port = PInt p /\ (0 < p < 65536)%Z
             /\ sockname server = (bind_address lp, p))
  /\ host = PBytes (encode (bind_address lp) ++ [x00])
  /\ bound_host server = bind_address lp
  /\ server ∈ servers lp.

Definition registry_ok (lp : Loop) : Prop :=
  Forall assigned_port (os_binds lp)
  /\ forall key value, forward_dict lp !! key = Some value -> entry_ok lp value.


(** ** A concrete gateway

    The frames of the rewrite scenario of the specification (section 8,
    scenario 2) and the states of a gateway bound to 192.168.1.10, on
    which the statements below are exercised: a reply header of 12 octets
    (empty service context list, request id, reply status, big-endian),
    and a body that starts with the host string (4-octet length,
    NUL-terminated) and the 2-octet port of a profile. *)
Module Example.

(** A profile for the backend 10.0.0.5:45678 and an object key. *)
Definition profile_of (port_hi port_lo : byte) : bytes :=
  [x00; x00; x00; x09] ++ encode "10.0.0.5" ++ [x00]
  ++ [port_hi; port_lo] ++ [xca; xfe].

Definition reply_header : bytes :=
  [x00; x00; x00; x00; x00; x00; x00; x01; x00; x00; x00; x00].

Definition reply_giop_header : giop.GiopHeader :=
  {| giop.major := x01; giop.minor := x02; giop.flags := x00;
     giop.message_type := giop.Reply; giop.size := 29 |}.

Definition reply_frame (port_hi port_lo : byte) : bytes :=
  giop.pack_giop reply_giop_header (reply_header ++ profile_of port_hi port_lo).

Definition request_giop_header : giop.GiopHeader :=
  {| giop.major := x01; giop.minor := x02; giop.flags := x00;
     giop.message_type := x00; giop.size := 0 |}.

Definition request_frame : bytes := giop.pack_giop request_giop_header [].

Definition fresh_writer : StreamWriter := {| written := []; closed := false |}.

Definition gateway (evs : list event) (os : list (option Z)) : state :=
  {| reader := fresh_reader evs; writer := fresh_writer;
     loop := initial_loop "192.168.1.10" os |}.

(** The backend of the scenario, and the same host at another port. *)
Definition backend : string * pyval := ("10.0.0.5"%string, PInt 45678).
Definition other_backend : string * pyval := ("10.0.0.5"%string, PInt 45679).

(** The reply of the scenario, arriving in one piece on a gateway whose
    operating system answers the binds as [os] says. *)
Definition reply_state (os : list (option Z)) : state :=
  gateway [FeedData (reply_frame xb2 x6e); FeedEof] os.

(** The IOR of that reply. *)
Definition found_ior : giop.IOR :=
  {| giop.host := PBytes (encode "10.0.0.5" ++ [x00]);
     giop.port := PInt 45678; giop.profile := [] |}.

(** A Request with a payload of four octets. *)
Definition request_with_payload_header : giop.GiopHeader :=
  {| giop.major := x01; giop.minor := x02; giop.flags := x00;
     giop.message_type := x00; giop.size := 4 |}.

Definition request_with_payload : bytes :=
  giop.pack_giop request_with_payload_header [x01; x02; x03; x04].

(** The two tuples the operating system's first two binds lead to. *)
Definition listener (id : nat) (p : Z) : Server :=
  {| server_id := id; forward_to := backend;
     bound_host := "192.168.1.10"; sockname := ("192.168.1.10"%string, p) |}.

Definition two_ports : Loop :=
  initial_loop "192.168.1.10" [Some 50000%Z; Some 50001%Z].

(** A little-endian header for a payload of three octets. *)
Definition sample_header : giop.GiopHeader :=
  {| giop.major := x01; giop.minor := x02; giop.flags := x01;
     giop.message_type := x00; giop.size := 3 |}.

(** Twelve octets that do not start with the magic. *)
Definition not_giop : bytes :=
  ["X"; "X"; "X"; "X"; x01; x02; x00; x00; x00; x00; x00; x00]%byte.

(** What is left of a state once its first chunk is read: the events
    [evs] are still to come. *)
Definition rest_of (evs : list event) (os : list (option Z)) : state :=
  {| reader := fresh_reader evs; writer := fresh_writer;
     loop := initial_loop "192.168.1.10" os |}.

(** The loop after one pass for the backend of the scenario, the
    listener getting port 50000. *)
Definition loop_with_backend : Loop :=
  shared_loop (run_passes [Call backend; Resume 0]
                 (start_passes (initial_loop "192.168.1.10" [Some 50000%Z]))).

(** A payload codec that finds no IOR, as on the direction from the client
    to the database, where the frames are requests. *)
Definition requests_codec : giop.Codec :=
  {| giop.unpack_reply_header := fun _ => inl MalformedReply;
     giop.find_ior := fun _ => None;
     giop.repack_ior := fun body _ _ _ => inr body |}.

End Example.

(** ** [forward] and the end of [run_server] *)

(** What [forward] leaves behind: the two ends of the client connection,
    and those of the connection to the device server when it was made. *)
Record relayed : Type := {
  client_reader : StreamReader;
  client_writer : StreamWriter;
  device_server : option (StreamReader * StreamWriter)
}.

(** [yield from asyncio.gather(task1, task2)]: both tasks run on, whatever
    the other does.  The first exception of a task is raised to the caller;
    when both raise, [task1_first] says which was first.  Without an
    exception the caller waits for both. *)
Definition gather (task1_first : bool) (o1 o2 : outcome unit) : outcome unit :=
  match o1, o2 with
  | Raise e1, Raise e2 => Raise (if task1_first then e1 else e2)
  | Raise e1, _ => Raise e1
  | _, Raise e2 => Raise e2
  | Blocked, _ => Blocked
  | _, Blocked => Blocked
  | Ret _, Ret _ => Ret tt
  end.

(** Lines 21-25.  [open_connection] is [asyncio.open_connection], and
    [target] the host and port bound by [partial] on line 65. *)
Definition forward
    (open_connection : string * pyval -> outcome (StreamReader * StreamWriter))
    (task1_first : bool) (target : string * pyval)
    (reader0 : StreamReader) (writer0 : StreamWriter) (lp : Loop)
  : option (outcome unit * relayed) :=
  match open_connection target with
  | Ret (ds_reader, ds_writer) =>
    match forward_pipe {| reader := reader0; writer := ds_writer; loop := lp |},
          forward_pipe {| reader := ds_reader; writer := writer0; loop := lp |} with
    | Some (o1, s1), Some (o2, s2) =>
      Some (gather task1_first o1 o2,
            {| client_reader := reader s1; client_writer := writer s2;
               device_server := Some (reader s2, writer s1) |})
    | _, _ => None
    end
  | Raise e =>
    Some (Raise e, {| client_reader := reader0; client_writer := writer0;
                      device_server := None |})
  | Blocked =>
    Some (Blocked, {| client_reader := reader0; client_writer := writer0;
                      device_server := None |})
  end.

(** Lines 113-114: the servers [run_server] closes when the loop has
    stopped, those of the registry and the server of the gateway itself. *)
Definition servers_to_close (lp : Loop) (root : Server) : list Server :=
  map (fun entry => fst (fst (snd entry))) (map_to_list (forward_dict lp))
  ++ [root].

(** A stream that comes to its end: no exception is stored, and what is
    still to come is data followed by the end of file. *)
Definition ends_in_eof (r : StreamReader) : Prop :=
  exception r = None
  /\ if eof r then incoming r = []
     else exists datas, incoming r = map FeedData datas ++ [FeedEof].

(** The octets a read has returned. *)
Definition read_data (o : outcome bytes) : bytes :=
  match o with
  | Ret data => data
  | _ => []
  end.

(** Every listener the loop has made is the one stored for its backend. *)
Definition all_listeners_stored (lp : Loop) : Prop :=
  forall server, server ∈ servers lp ->
    forward_dict lp !! forward_to server = Some (make_value server).

(** The loops the gateway reaches when no pass through lines 64-75
    overlaps another: frames are read, and a pass that starts while none
    is suspended is resumed before the next one starts. *)
Inductive reachable_in_turn : Loop -> Prop :=
  | in_turn_run_server (bind : string) (os : list (option Z)) :
      reachable_in_turn (initial_loop bind os)
  | in_turn_read_frame (s s' : state) (o : outcome bytes) :
      reachable_in_turn (loop s) -> read_frame s = (o, s') ->
      reachable_in_turn (loop s')
  | in_turn_pass (lp : Loop) (key : string * pyval) :
      reachable_in_turn lp ->
      reachable_in_turn
        (shared_loop (run_passes [Call key; Resume 0] (start_passes lp))).

(** * Properties *)

(** ** Octets *)

Lemma all_but_last_snoc (b : bytes) (x : byte) : all_but_last (b ++ [x]) = b.
Proof.
  unfold all_but_last. rewrite length_app. simpl.
  replace (length b + 1 - 1)%nat with (length b) by lia.
  now rewrite take_app_length.
Qed.

Lemma div_mod_256 (n : N) : n / 256 * 256 + n mod 256 = n.
Proof. pose proof (N.div_mod n 256). lia. Qed.

Lemma decode_encode_u32 (le : bool) (n : N) :
  n < 4294967296 ->
  match giop.encode_u32 le n with
  | [a; b; c; d] => giop.decode_u32 le a b c d = n
  | _ => False
  end.
Proof.
  intros Hn. unfold giop.encode_u32, giop.decode_u32.
  assert (H0 : Byte.to_N (byte_of_N (n / 16777216)) = n / 16777216).
  { apply to_N_byte_of_N. apply N.Div0.div_lt_upper_bound. lia. }
  assert (H1 : Byte.to_N (byte_of_N (n / 65536)) = (n / 65536) mod 256).
  { unfold byte_of_N. rewrite <- (N.Div0.mod_mod (n / 65536) 256) at 1.
    fold (byte_of_N ((n / 65536) mod 256)). apply to_N_byte_of_N.
    apply N.mod_lt. lia. }
  assert (H2 : Byte.to_N (byte_of_N (n / 256)) = (n / 256) mod 256).
  { unfold byte_of_N. rewrite <- (N.Div0.mod_mod (n / 256) 256) at 1.
    fold (byte_of_N ((n / 256) mod 256)). apply to_N_byte_of_N.
    apply N.mod_lt. lia. }
  assert (H3 : Byte.to_N (byte_of_N n) = n mod 256).
  { unfold byte_of_N. rewrite <- (N.Div0.mod_mod n 256) at 1.
    fold (byte_of_N (n mod 256)). apply to_N_byte_of_N.
    apply N.mod_lt. lia. }
  assert (E1 : n / 65536 = n / 256 / 256).
  { rewrite N.Div0.div_div. reflexivity. }
  assert (E2 : n / 16777216 = n / 256 / 256 / 256).
  { rewrite !N.Div0.div_div. reflexivity. }
  pose proof (div_mod_256 n) as D0.
  pose proof (div_mod_256 (n / 256)) as D1.
  pose proof (div_mod_256 (n / 256 / 256)) as D2.
  destruct le; rewrite H0, H1, H2, H3, E2, E1; lia.
Qed.

(** ** C8: the header codec round trip *)

(** C8. For a GIOP header [h] (its size a 4-octet unsigned integer) and a
    body [body] of [size h] octets, unpacking the first 12 octets of
    [pack_giop h body] gives [h] back, so that packing the unpacked header
    with [body] yields the original [12 + |body|] octets. *)
Theorem pack_unpack_giop_round_trip (h : giop.GiopHeader) (body : bytes) :
  N.of_nat (length body) = giop.size h ->
  giop.size h < 4294967296 ->
  exists h',
    giop.unpack_giop_header (take 12 (giop.pack_giop h body)) = inr h'
    /\ h' = h
    /\ giop.pack_giop h' body = giop.pack_giop h body
    /\ length (giop.pack_giop h body) = (12 + length body)%nat.
Proof.
  intros _ Hsz. exists h.
  pose proof (decode_encode_u32 (giop.little_endian (giop.flags h)) _ Hsz) as Hd.
  unfold giop.pack_giop, giop.pack_header.
  destruct (giop.encode_u32 _ _) as [|a [|b [|c [|d [|? ?]]]]] eqn:E;
    try contradiction.
  split; [|split; [|split]]; [| reflexivity | reflexivity | simpl; reflexivity].
  simpl. rewrite Hd. destruct h; reflexivity.
Qed.

(** ** Running a coroutine step by step *)

Lemma bind_Ret {A B : Type} (m : coroutine A) (f : A -> coroutine B)
    (s s1 : state) (a : A) :
  m s = (Ret a, s1) -> (m ≫= f) s = f a s1.
Proof. intros H. unfold mbind, coroutine_bind. now rewrite H. Qed.

Lemma bind_Raise {A B : Type} (m : coroutine A) (f : A -> coroutine B)
    (s s1 : state) (e : exn) :
  m s = (Raise e, s1) -> (m ≫= f) s = (Raise e, s1).
Proof. intros H. unfold mbind, coroutine_bind. now rewrite H. Qed.

Lemma bind_Blocked {A B : Type} (m : coroutine A) (f : A -> coroutine B)
    (s s1 : state) :
  m s = (Blocked, s1) -> (m ≫= f) s = (Blocked, s1).
Proof. intros H. unfold mbind, coroutine_bind. now rewrite H. Qed.

Lemma bind_of_result {A B : Type} (a : A) (f : A -> coroutine B) (s : state) :
  (of_result (inr a) ≫= f) s = f a s.
Proof. reflexivity. Qed.

Lemma on_reader_inv {A : Type} (op : StreamReader -> outcome A * StreamReader)
    (s s' : state) (o : outcome A) :
  on_reader op s = (o, s') ->
  op (reader s) = (o, reader s') /\ writer s' = writer s /\ loop s' = loop s.
Proof.
  unfold on_reader. destruct (op (reader s)) as [o' r'].
  intros [= <- <-]. auto.
Qed.

Lemma on_loop_inv {A : Type} (op : Loop -> outcome A * Loop)
    (s s' : state) (o : outcome A) :
  on_loop op s = (o, s') ->
  op (loop s) = (o, loop s') /\ writer s' = writer s /\ reader s' = reader s.
Proof.
  unfold on_loop. destruct (op (loop s)) as [o' lp'].
  intros [= <- <-]. auto.
Qed.

(** ** What [read] takes from the stream *)

Lemma wait_for_data_pending (evs : list event) (r : StreamReader) :
  wait_for_data evs = (Ret tt, r) -> concat (map event_data evs) = pending r.
Proof.
  induction evs as [|ev evs IH]; simpl; [discriminate|].
  destruct ev as [[|b data]| |e]; simpl.
  - exact IH.
  - intros [= <-]. reflexivity.
  - intros [= <-]. reflexivity.
  - discriminate.
Qed.

Lemma wait_for_data_size (evs : list event) (o : outcome unit) (r : StreamReader) :
  wait_for_data evs = (o, r) ->
  (reader_size r <= sum_list (map event_size evs))%nat
  /\ (o = Ret tt -> (reader_size r < sum_list (map event_size evs))%nat).
Proof.
  revert o r. induction evs as [|ev evs IH]; intros o r; simpl.
  - intros [= <- <-]. split; [reflexivity | discriminate].
  - destruct ev as [[|b data]| |e]; simpl.
    + intros H. destruct (IH _ _ H) as [H1 H2]. split; [lia|].
      intros Ho. specialize (H2 Ho). lia.
    + intros [= <- <-]. unfold reader_size. simpl. split; intros; lia.
    + intros [= <- <-]. unfold reader_size. simpl. split; intros; lia.
    + intros [= <- <-]. unfold reader_size. simpl. split; intros; lia.
Qed.

Lemma take_buffer_pending (n : N) (r r' : StreamReader) (data : bytes) :
  take_buffer n r = (Ret data, r') -> pending r = data ++ pending r'.
Proof.
  unfold take_buffer, pending. intros [= <- <-]. simpl.
  now rewrite app_assoc, take_drop.
Qed.

Lemma read_pending (n : N) (r r' : StreamReader) (data : bytes) :
  read n r = (Ret data, r') -> pending r = data ++ pending r'.
Proof.
  unfold read. destruct (exception r); [discriminate|].
  destruct (n =? 0); [intros [= <- <-]; reflexivity|].
  destruct (bool_decide (buffer r = []) && negb (eof r)) eqn:Hw.
  - apply andb_true_iff in Hw as [Hb _]. apply bool_decide_eq_true in Hb.
    destruct (wait_for_data (incoming r)) as [[[]| |] r1] eqn:Hwait;
      try discriminate.
    intros H. apply take_buffer_pending in H. rewrite <- H.
    unfold pending at 1. rewrite Hb. simpl.
    now apply wait_for_data_pending.
  - apply take_buffer_pending.
Qed.

Lemma read_length (n : N) (r r' : StreamReader) (data : bytes) :
  read n r = (Ret data, r') -> (length data <= N.to_nat n)%nat.
Proof.
  unfold read. destruct (exception r); [discriminate|].
  destruct (n =? 0); [intros [= <- <-]; simpl; lia|].
  assert (Ht : forall r0, take_buffer n r0 = (Ret data, r') ->
                          (length data <= N.to_nat n)%nat).
  { unfold take_buffer. intros r0 [= <- <-]. rewrite length_take. lia. }
  destruct (bool_decide (buffer r = []) && negb (eof r)).
  - destruct (wait_for_data (incoming r)) as [[[]| |] r1]; try discriminate.
    apply Ht.
  - apply Ht.
Qed.

Lemma take_buffer_size (n : N) (r r' : StreamReader) (o : outcome bytes) :
  take_buffer n r = (o, r') ->
  (reader_size r' <= reader_size r)%nat
  /\ (n <> 0 -> buffer r <> [] -> (reader_size r' < reader_size r)%nat).
Proof.
  unfold take_buffer, reader_size. intros [= <- <-]. simpl.
  rewrite length_drop. split; [lia|].
  intros Hn Hb. destruct (buffer r); [congruence|]. simpl. lia.
Qed.

Lemma read_size (n : N) (r r' : StreamReader) (o : outcome bytes) :
  read n r = (o, r') ->
  (reader_size r' <= reader_size r)%nat
  /\ (n <> 0 -> at_eof r = false -> (exists data, o = Ret data) ->
      (reader_size r' < reader_size r)%nat).
Proof.
  unfold read. destruct (exception r).
  { intros [= <- <-]. split; [reflexivity|]. intros _ _ [d Hd]. discriminate. }
  destruct (n =? 0) eqn:Hn0.
  { apply N.eqb_eq in Hn0. intros [= <- <-]. split; [reflexivity|]. congruence. }
  destruct (bool_decide (buffer r = []) && negb (eof r)) eqn:Hw.
  - apply andb_true_iff in Hw as [Hb _]. apply bool_decide_eq_true in Hb.
    destruct (wait_for_data (incoming r)) as [ou r1] eqn:Hwait.
    pose proof (wait_for_data_size _ _ _ Hwait) as [Hle Hlt].
    assert (Hr : reader_size r = sum_list (map event_size (incoming r))).
    { unfold reader_size. now rewrite Hb. }
    destruct ou as [[]| |].
    + intros H. apply take_buffer_size in H as [H1 _].
      specialize (Hlt eq_refl). split; intros; lia.
    + intros [= <- <-]. split; [lia|]. intros _ _ [d Hd]. discriminate.
    + intros [= <- <-]. split; [lia|]. intros _ _ [d Hd]. discriminate.
  - intros H. apply take_buffer_size in H as [H1 H2]. split; [exact H1|].
    intros Hn Heof _. apply H2.
    + intros ->. discriminate.
    + intros Hb. unfold at_eof in Heof. rewrite Hb in Hw, Heof.
      destruct (eof r); vm_compute in Hw, Heof; discriminate.
Qed.


Lemma wait_for_data_wakes (evs : list event) (r : StreamReader) :
  wait_for_data evs = (Ret tt, r) ->
  buffer r <> [] \/ (buffer r = [] /\ eof r = true).
Proof.
  induction evs as [|ev evs IH]; simpl; [discriminate|].
  destruct ev as [[|b data]| |e]; simpl.
  - exact IH.
  - intros [= <-]. left. discriminate.
  - intros [= <-]. right. auto.
  - discriminate.
Qed.

Lemma read_nothing (n : N) (r r' : StreamReader) :
  n <> 0 -> read n r = (Ret [], r') -> at_eof r' = true.
Proof.
  intros Hn. unfold read. destruct (exception r); [discriminate|].
  destruct (n =? 0) eqn:Hn0; [apply N.eqb_eq in Hn0; contradiction|].
  assert (Ht : forall r0, (buffer r0 = [] -> eof r0 = true) ->
                          take_buffer n r0 = (Ret [], r') -> at_eof r' = true).
  { unfold take_buffer. intros r0 Hr0 [= Htake <-]. unfold at_eof. simpl.
    destruct (buffer r0) as [|b buf] eqn:Hb.
    - rewrite Hr0 by reflexivity. now rewrite drop_nil.
    - destruct (N.to_nat n) eqn:Hnat; [lia|]. simpl in Htake. discriminate. }
  destruct (bool_decide (buffer r = []) && negb (eof r)) eqn:Hw.
  - destruct (wait_for_data (incoming r)) as [[[]| |] r1] eqn:Hwait;
      try discriminate.
    apply Ht. intros Hb.
    destruct (wait_for_data_wakes _ _ Hwait) as [?|[_ ?]]; [contradiction|assumption].
  - apply Ht. intros Hb. rewrite Hb in Hw.
    destruct (eof r); [reflexivity|]. vm_compute in Hw. discriminate.
Qed.


(** ** [read_frame] *)

Lemma reads_frame_inv (s s' : state) (raw_header raw_data : bytes)
    (header : giop.GiopHeader) :
  reads_frame s raw_header header raw_data s' ->
  pending (reader s) = (raw_header ++ raw_data) ++ pending (reader s')
  /\ writer s' = writer s /\ loop s' = loop s
  /\ at_eof (reader s) = false.
Proof.
  intros (s1 & H1 & Hne & _ & H2).
  apply on_reader_inv in H1 as (R1 & W1 & L1).
  apply on_reader_inv in H2 as (R2 & W2 & L2).
  repeat split; try congruence.
  - rewrite (read_pending _ _ _ _ R1), (read_pending _ _ _ _ R2).
    now rewrite app_assoc.
  - destruct (at_eof (reader s)) eqn:Heof; [|reflexivity].
    unfold at_eof in Heof. apply andb_true_iff in Heof as [He Hb].
    apply bool_decide_eq_true in Hb.
    unfold read in R1. destruct (exception (reader s)); [discriminate|].
    simpl in R1. rewrite Hb, He in R1. simpl in R1.
    unfold take_buffer in R1. rewrite Hb in R1. simpl in R1.
    injection R1 as <- _. congruence.
Qed.

(** Once header and payload are read, line 49 raises. *)
Lemma read_frame_name_error (s s' : state) (raw_header raw_data : bytes)
    (header : giop.GiopHeader) :
  reads_frame s raw_header header raw_data s' ->
  read_frame s = (Raise NameError, s').
Proof.
  intros (s1 & H1 & Hne & Hun & H2).
  unfold read_frame. rewrite (bind_Ret _ _ _ _ _ H1).
  rewrite bool_decide_eq_false_2 by exact Hne.
  rewrite Hun, bind_of_result.
  now rewrite (bind_Ret _ _ _ _ _ H2).
Qed.

(** However [read_frame] ends, it has changed nothing but the reader, and
    what it returns, when it returns, is empty: the reader was at end of
    file before the first octet of a header. *)
Lemma read_frame_inv (s s' : state) (o : outcome bytes) :
  read_frame s = (o, s') ->
  loop s' = loop s /\ writer s' = writer s
  /\ (forall data, o = Ret data ->
        data = [] /\ pending (reader s) = pending (reader s')
        /\ at_eof (reader s') = true).
Proof.
  unfold read_frame.
  destruct (on_reader (read 12) s) as [o1 s1] eqn:H1.
  pose proof (on_reader_inv _ _ _ _ H1) as (R1 & W1 & L1).
  destruct o1 as [raw_header|e|].
  2:{ rewrite (bind_Raise _ _ _ _ _ H1). intros [= <- <-].
      repeat split; auto; discriminate. }
  2:{ rewrite (bind_Blocked _ _ _ _ H1). intros [= <- <-].
      repeat split; auto; discriminate. }
  rewrite (bind_Ret _ _ _ _ _ H1).
  destruct (bool_decide (raw_header = [])) eqn:Hnil.
  { apply bool_decide_eq_true in Hnil. subst raw_header.
    intros [= <- <-]. split; [exact L1|]. split; [exact W1|].
    intros data [= <-]. split; [reflexivity|]. split.
    - now rewrite (read_pending _ _ _ _ R1).
    - now apply (read_nothing 12 (reader s)). }
  destruct (giop.unpack_giop_header raw_header) as [e|header] eqn:Hun.
  { intros [= <- <-]. repeat split; auto; discriminate. }
  rewrite bind_of_result.
  destruct (on_reader (read (giop.size header)) s1) as [o2 s2] eqn:H2.
  pose proof (on_reader_inv _ _ _ _ H2) as (R2 & W2 & L2).
  destruct o2 as [raw_data|e|].
  - rewrite (bind_Ret _ _ _ _ _ H2). intros [= <- <-].
    repeat split; try congruence; discriminate.
  - rewrite (bind_Raise _ _ _ _ _ H2). intros [= <- <-].
    repeat split; try congruence; discriminate.
  - rewrite (bind_Blocked _ _ _ _ H2). intros [= <- <-].
    repeat split; try congruence; discriminate.
Qed.

Lemma read_some_not_at_eof (n : N) (r r' : StreamReader) (data : bytes) :
  read n r = (Ret data, r') -> data <> [] -> at_eof r = false.
Proof.
  intros R Hne. destruct (at_eof r) eqn:Heof; [|reflexivity].
  unfold at_eof in Heof. apply andb_true_iff in Heof as [He Hb].
  apply bool_decide_eq_true in Hb.
  unfold read in R. destruct (exception r); [discriminate|].
  destruct (n =? 0); [injection R as <- _; congruence|].
  rewrite Hb, He in R. simpl in R.
  unfold take_buffer in R. rewrite Hb in R. rewrite take_nil in R.
  injection R as <- _. congruence.
Qed.

(** An exception that leaves [read_frame] leaves [inspect_pipe] too, which
    closes its writer on the way. *)
Lemma inspect_pipe_raises (s s' : state) (e : exn) :
  read_frame s = (Raise e, s') ->
  at_eof (reader s) = false ->
  inspect_pipe s = Some (Raise e, close s').
Proof.
  intros Hframe Heof. unfold inspect_pipe, closing. simpl. rewrite Heof.
  unfold inspect_pipe_body. now rewrite (bind_Raise _ _ _ _ _ Hframe).
Qed.

(** C3, as the code has it.  A frame whose header unpacks is never
    returned by [read_frame]: once header and payload are read, line 49
    reads the unbound name [message_type] and raises NameError, whatever
    the message type and the reply status are.  The pipe ends with that
    exception and its writer closed, and of the octets of the frame, all
    taken from the stream, none is written. *)
Theorem frame_ends_in_name_error (s s' : state)
    (raw_header raw_data : bytes) (header : giop.GiopHeader) :
  reads_frame s raw_header header raw_data s' ->
  read_frame s = (Raise NameError, s')
  /\ inspect_pipe s = Some (Raise NameError, close s')
  /\ written (writer (close s')) = written (writer s)
  /\ pending (reader s) = (raw_header ++ raw_data) ++ pending (reader s')
  /\ raw_header ++ raw_data <> [].
Proof.
  intros Hread.
  pose proof (reads_frame_inv _ _ _ _ _ Hread) as (Hpend & Hw & Hl & Heof).
  pose proof (read_frame_name_error _ _ _ _ _ Hread) as Hframe.
  split; [exact Hframe|].
  split; [exact (inspect_pipe_raises _ _ _ Hframe Heof)|].
  split; [simpl; congruence|]. split; [exact Hpend|].
  destruct Hread as (s1 & _ & Hne & _ & _).
  intros Happ. apply app_eq_nil in Happ as [? _]. contradiction.
Qed.

Lemma unpack_short_header (raw : bytes) :
  (length raw < 12)%nat -> giop.unpack_giop_header raw = inl MalformedHeader.
Proof.
  intros Hlen.
  do 12 (destruct raw as [|? raw]; [reflexivity|]).
  simpl in Hlen. lia.
Qed.

Lemma unpack_header_length (raw : bytes) (header : giop.GiopHeader) :
  giop.unpack_giop_header raw = inr header -> (12 <= length raw)%nat.
Proof.
  intros Hun. destruct (Nat.lt_ge_cases (length raw) 12) as [Hlt|]; [|assumption].
  rewrite (unpack_short_header _ Hlt) in Hun. discriminate.
Qed.

(** The first [read] on a fresh reader returns what the first chunk
    gives, and a [read] on a buffer that is not empty takes from it. *)
Lemma read_first_chunk (n : N) (chunk : bytes) (rest : list event) :
  n <> 0 -> chunk <> [] ->
  read n (fresh_reader (FeedData chunk :: rest))
  = (Ret (take (N.to_nat n) chunk),
     {| buffer := drop (N.to_nat n) chunk; eof := false; exception := None;
        incoming := rest |}).
Proof.
  intros Hn Hne. unfold read. simpl.
  apply N.eqb_neq in Hn. rewrite Hn.
  destruct chunk as [|b chunk]; [congruence|]. reflexivity.
Qed.

Lemma read_from_buffer (n : N) (r : StreamReader) :
  n <> 0 -> exception r = None -> buffer r <> [] ->
  read n r = take_buffer n r.
Proof.
  intros Hn Hex Hb. unfold read. rewrite Hex.
  apply N.eqb_neq in Hn. rewrite Hn.
  rewrite bool_decide_eq_false_2 by exact Hb. reflexivity.
Qed.

(** C4, as the code has it.  [read_frame] issues one [read(12)] and one
    [read(header.size)], and [read(n)] returns as soon as one octet is
    there.  On a connection whose first event is the end of file the
    result is empty.  When the first chunk has 1 to 11 octets, whatever
    follows it, these octets go to [unpack_giop_header], which fails
    with MalformedHeader: nothing checks for a truncated frame.  When
    the first chunk holds the header and a part of the payload, the
    second read returns that part, fewer octets than [header.size], and
    [read_frame] goes on to line 49 with it. *)
Theorem read_frame_takes_one_read_each (s : state) (ev : event)
    (rest : list event) :
  reader s = fresh_reader (ev :: rest) ->
  let after (at_end : bool) :=
    {| reader := {| buffer := []; eof := at_end; exception := None;
                    incoming := rest |};
       writer := writer s; loop := loop s |} in
  (ev = FeedEof -> read_frame s = (Ret [], after true))
  /\ (forall chunk, ev = FeedData chunk -> chunk <> [] ->
        (length chunk < 12)%nat ->
        read_frame s = (Raise MalformedHeader, after false)
        /\ fst (read_frame s) <> Raise TruncatedFrame)
  /\ (forall chunk header, ev = FeedData chunk ->
        giop.unpack_giop_header (take 12 chunk) = inr header ->
        (12 < length chunk < 12 + N.to_nat (giop.size header))%nat ->
        reads_frame s (take 12 chunk) header (drop 12 chunk) (after false)
        /\ N.of_nat (length (drop 12 chunk)) < giop.size header
        /\ read_frame s = (Raise NameError, after false)).
Proof.
  intros Hr after. split; [|split].
  - intros ->.
    assert (H1 : on_reader (read 12) s = (Ret [], after true)).
    { unfold on_reader. rewrite Hr. reflexivity. }
    unfold read_frame. now rewrite (bind_Ret _ _ _ _ _ H1).
  - intros chunk -> Hne Hlen.
    assert (H1 : on_reader (read 12) s = (Ret chunk, after false)).
    { unfold on_reader. rewrite Hr, read_first_chunk by (lia || assumption).
      change (N.to_nat 12) with 12%nat.
      rewrite take_ge, drop_ge by lia. reflexivity. }
    assert (Hframe : read_frame s = (Raise MalformedHeader, after false)).
    { unfold read_frame. rewrite (bind_Ret _ _ _ _ _ H1).
      rewrite bool_decide_eq_false_2 by exact Hne.
      now rewrite (unpack_short_header _ Hlen). }
    split; [exact Hframe|]. rewrite Hframe. discriminate.
  - intros chunk header -> Hun Hlen.
    assert (Hne : chunk <> []) by (intros ->; simpl in Hlen; lia).
    assert (Hread : reads_frame s (take 12 chunk) header (drop 12 chunk)
                      (after false)).
    { exists {| reader := {| buffer := drop 12 chunk; eof := false;
                             exception := None; incoming := rest |};
                writer := writer s; loop := loop s |}.
      split; [|split; [|split; [exact Hun|]]].
      - unfold on_reader. rewrite Hr, read_first_chunk by (lia || assumption).
        reflexivity.
      - destruct chunk; [congruence|discriminate].
      - unfold on_reader. cbn [reader writer loop].
        rewrite read_from_buffer; cbn [buffer exception]; try reflexivity.
        + unfold take_buffer. cbn [buffer eof exception incoming].
          rewrite (take_ge (drop 12 chunk)), (drop_ge (drop 12 chunk))
            by (rewrite length_drop; lia).
          reflexivity.
        + lia.
        + intros Hnil. apply (f_equal length) in Hnil.
          rewrite length_drop in Hnil. cbn [length] in Hnil. lia. }
    split; [exact Hread|]. split.
    + rewrite length_drop. lia.
    + exact (read_frame_name_error _ _ _ _ _ Hread).
Qed.

(** ** The relay loops end, and close their writer *)

Lemma read_frame_size (s s' : state) (o : outcome bytes) :
  read_frame s = (o, s') ->
  (reader_size (reader s') <= reader_size (reader s))%nat
  /\ (at_eof (reader s) = false -> (exists data, o = Ret data) ->
      (reader_size (reader s') < reader_size (reader s))%nat).
Proof.
  unfold read_frame.
  destruct (on_reader (read 12) s) as [o1 s1] eqn:H1.
  pose proof (on_reader_inv _ _ _ _ H1) as (R1 & _ & _).
  pose proof (read_size _ _ _ _ R1) as [Hle1 Hlt1].
  assert (Hlt1' : at_eof (reader s) = false -> (exists d, o1 = Ret d) ->
                  (reader_size (reader s1) < reader_size (reader s))%nat).
  { intros. now apply Hlt1. }
  clear Hlt1 R1.
  destruct o1 as [raw_header|e|].
  2:{ rewrite (bind_Raise _ _ _ _ _ H1). intros [= <- <-].
      split; [exact Hle1|]. intros _ [d Hd]. discriminate. }
  2:{ rewrite (bind_Blocked _ _ _ _ H1). intros [= <- <-].
      split; [exact Hle1|]. intros _ [d Hd]. discriminate. }
  rewrite (bind_Ret _ _ _ _ _ H1).
  destruct (bool_decide (raw_header = [])).
  { intros [= <- <-]. split; [exact Hle1|]. intros He _. apply Hlt1'; eauto. }
  destruct (giop.unpack_giop_header raw_header) as [e|header].
  { intros [= <- <-]. split; [exact Hle1|]. intros _ [d Hd]. discriminate. }
  rewrite bind_of_result.
  destruct (on_reader (read (giop.size header)) s1) as [o2 s2] eqn:H2.
  pose proof (on_reader_inv _ _ _ _ H2) as (R2 & _ & _).
  pose proof (read_size _ _ _ _ R2) as [Hle2 _]. clear R2.
  destruct o2 as [raw_data|e|].
  - rewrite (bind_Ret _ _ _ _ _ H2). intros [= <- <-].
    split; [lia|]. intros _ [d Hd]. discriminate.
  - rewrite (bind_Raise _ _ _ _ _ H2). intros [= <- <-].
    split; [lia|]. intros _ [d Hd]. discriminate.
  - rewrite (bind_Blocked _ _ _ _ H2). intros [= <- <-].
    split; [lia|]. intros _ [d Hd]. discriminate.
Qed.

Lemma while_not_at_eof_ends (body : coroutine bool) :
  (forall s s', at_eof (reader s) = false -> body s = (Ret true, s') ->
                (reader_size (reader s') < reader_size (reader s))%nat) ->
  forall fuel s,
    (reader_size (reader s) < fuel)%nat ->
    exists o s', while_not_at_eof fuel body s = Some (o, s').
Proof.
  intros Hbody fuel. induction fuel as [|fuel IH]; intros s Hfuel; [lia|].
  simpl. destruct (at_eof (reader s)) eqn:Heof; [eauto|].
  destruct (body s) as [[[|]|e|] s1] eqn:Hb; eauto.
  apply IH. specialize (Hbody _ _ Heof Hb). lia.
Qed.

Lemma closing_closes (block : state -> option (outcome unit * state)) (s : state) :
  (exists o s', block s = Some (o, s')) ->
  exists o s', closing block s = Some (o, s')
    /\ (o = Blocked \/ closed (writer s') = true).
Proof.
  intros (o & s' & Hb). unfold closing. rewrite Hb.
  destruct o as [[]|e|]; eexists _, _; (split; [reflexivity|]); auto.
Qed.

(** C9. Both relay loops come to an end on every stream that does not
    leave them suspended for ever, and whenever one is left, by the end
    of the loop, by [break] or by an exception raised in its body, its
    writer has been closed. *)
Theorem pipes_close_their_writer (s : state) :
  (exists o s', forward_pipe s = Some (o, s')
     /\ (o = Blocked \/ closed (writer s') = true))
  /\ (exists o s', inspect_pipe s = Some (o, s')
     /\ (o = Blocked \/ closed (writer s') = true)).
Proof.
  split; apply closing_closes; apply while_not_at_eof_ends; try lia.
  - intros s0 s1 Heof. unfold forward_pipe_body.
    destruct (on_reader (read 4096) s0) as [[data|e|] s2] eqn:Hr.
    + rewrite (bind_Ret _ _ _ _ _ Hr). intros [= <-]. simpl.
      apply on_reader_inv in Hr as (R & _ & _).
      apply read_size in R as [_ Hlt]. apply Hlt; eauto; discriminate.
    + now rewrite (bind_Raise _ _ _ _ _ Hr).
    + now rewrite (bind_Blocked _ _ _ _ Hr).
  - intros s0 s1 Heof. unfold inspect_pipe_body.
    destruct (read_frame s0) as [[data|e|] s2] eqn:Hr.
    + rewrite (bind_Ret _ _ _ _ _ Hr).
      destruct (bool_decide (data = [])); [discriminate|].
      intros [= <-]. simpl.
      apply read_frame_size in Hr as [_ Hlt]. apply Hlt; eauto.
    + now rewrite (bind_Raise _ _ _ _ _ Hr).
    + now rewrite (bind_Blocked _ _ _ _ Hr).
Qed.

(** ** The registry *)

Lemma start_server_inv (target : string * pyval) (lp lp' : Loop)
    (o : outcome Server) :
  start_server target (bind_address lp) lp = (o, lp') ->
  bind_address lp' = bind_address lp
  /\ forward_dict lp' = forward_dict lp
  /\ (exists n, os_binds lp' = drop n (os_binds lp))
  /\ match o with
     | Ret server =>
       exists p, os_binds lp = Some p :: os_binds lp'
         /\ servers lp' = servers lp ++ [server]
         /\ forward_to server = target
         /\ bound_host server = bind_address lp
         /\ sockname server = (bind_address lp, p)
     | _ => servers lp' = servers lp
     end.
Proof.
  unfold start_server. destruct (os_binds lp) as [|[p|] rest] eqn:Hos.
  - intros [= <- <-]. repeat split; try reflexivity. exists 0%nat. now rewrite Hos.
  - intros [= <- <-]. simpl. repeat split.
    + exists 1%nat. reflexivity.
    + exists p. auto.
  - intros [= <- <-]. simpl. repeat split. exists 1%nat. reflexivity.
Qed.

Lemma bind_and_store_inv (key : string * pyval) (lp lp' : Loop) (o : outcome unit) :
  bind_and_store key lp = (o, lp') ->
  bind_address lp' = bind_address lp
  /\ (exists n, os_binds lp' = drop n (os_binds lp))
  /\ ((forward_dict lp' = forward_dict lp /\ servers lp' = servers lp /\ o <> Ret tt)
      \/ (exists server p,
            o = Ret tt
            /\ os_binds lp = Some p :: os_binds lp'
            /\ forward_dict lp' = <[key := make_value server]> (forward_dict lp)
            /\ servers lp' = servers lp ++ [server]
            /\ forward_to server = key
            /\ bound_host server = bind_address lp
            /\ sockname server = (bind_address lp, p))).
Proof.
  unfold bind_and_store.
  destruct (start_server key (bind_address lp) lp) as [o1 lp1] eqn:Hs.
  apply start_server_inv in Hs as (Hb & Hf & Hn & Ho).
  destruct o1 as [server|e|]; intros [= <- <-]; simpl.
  - destruct Ho as (p & Hos & Hsv & Hft & Hbh & Hsn).
    split; [exact Hb|]. split; [exact Hn|]. right.
    exists server, p. rewrite Hf. auto 10.
  - split; [exact Hb|]. split; [exact Hn|]. left. auto.
  - split; [exact Hb|]. split; [exact Hn|]. left. auto.
Qed.

Lemma entry_ok_mono (lp lp' : Loop) (value : Server * pyval * pyval) :
  bind_address lp' = bind_address lp ->
  (forall server, server ∈ servers lp -> server ∈ servers lp') ->
  entry_ok lp value -> entry_ok lp' value.
Proof.
  intros Hb Hsv. destruct value as [[server port] host]. unfold entry_ok.
  rewrite Hb. intros (Hp & Hh & Hbh & Hin). auto.
Qed.

Lemma bind_and_store_ok (key : string * pyval) (lp lp' : Loop) (o : outcome unit) :
  registry_ok lp -> bind_and_store key lp = (o, lp') -> registry_ok lp'.
Proof.
  intros [Hos Hreg] H.
  apply bind_and_store_inv in H as (Hb & [n Hn] & Hcase).
  split.
  { rewrite Hn. now apply Forall_drop. }
  destruct Hcase as [(Hf & Hsv & _) | (server & p & _ & Hp & Hf & Hsv & Hft & Hbh & Hsn)].
  - intros k v Hk. rewrite Hf in Hk.
    eapply entry_ok_mono; [exact Hb | | now apply (Hreg k)].
    intros sv. now rewrite Hsv.
  - intros k v Hk. rewrite Hf in Hk.
    destruct (decide (key = k)) as [->|Hne].
    + rewrite lookup_insert_eq in Hk. injection Hk as <-.
      unfold make_value, entry_ok. rewrite Hb, Hsn, Hsv. simpl.
      split; [|split; [reflexivity|split; [exact Hbh|]]].
      * exists p. split; [reflexivity|]. split; [|reflexivity].
        rewrite Hp in Hos. apply Forall_cons in Hos as [Hok _]. now apply Hok.
      * apply elem_of_app. right. now apply list_elem_of_singleton.
    + rewrite lookup_insert_ne in Hk by exact Hne.
      eapply entry_ok_mono; [exact Hb | | now apply (Hreg k)].
      intros sv Hin. rewrite Hsv. apply elem_of_app. now left.
Qed.

Lemma pass_step_loop (st : passes) (ev : pass_event) :
  shared_loop (pass_step st ev) = shared_loop st
  \/ exists key o, bind_and_store key (shared_loop st)
                   = (o, shared_loop (pass_step st ev)).
Proof.
  destruct ev as [key|i]; simpl.
  - destruct (forward_dict (shared_loop st) !! key); now left.
  - destruct (suspended st !! i) as [key|]; [|now left].
    destruct (bind_and_store key (shared_loop st)) as [o lp'] eqn:Hb.
    right. exists key, o. rewrite Hb. now destruct o.
Qed.

Lemma reachable_registry_ok (lp : Loop) : reachable lp -> registry_ok lp.
Proof.
  induction 1 as [bind os Hos | s s' o _ IH Hrf | st ev _ IH].
  - split; [exact Hos|]. intros key value Hk. simpl in Hk.
    now rewrite lookup_empty in Hk.
  - apply read_frame_inv in Hrf as (-> & _). exact IH.
  - destruct (pass_step_loop st ev) as [-> | (key & o' & Hb)];
      [exact IH|]. exact (bind_and_store_ok _ _ _ _ IH Hb).
Qed.

(** C6. In every loop the gateway can reach, each tuple of the registry
    holds the port the operating system gave to its listener, which is
    not zero but the port [getsockname] reports for the bind on port 0,
    and its listener was bound on [loop.bind_address]. *)
Theorem registry_ports_and_bind_address (lp : Loop) (key : string * pyval)
    (server : Server) (local_port local_host : pyval) :
  reachable lp ->
  forward_dict lp !! key = Some (server, local_port, local_host) ->
  (exists p, local_port = PInt p /\ p <> 0%Z /\ (0 < p < 65536)%Z
             /\ sockname server = (bind_address lp, p))
  /\ bound_host server = bind_address lp
  /\ server ∈ servers lp.
Proof.
  intros Hreach Hk.
  destruct (reachable_registry_ok _ Hreach) as [_ Hreg].
  destruct (Hreg _ _ Hk) as ((p & Hp & Hr & Hsn) & _ & Hbh & Hin).
  split; [|auto]. exists p. repeat split; try assumption; lia.
Qed.


(** ** The lines after line 49 *)

Lemma length_encode_u32 (le : bool) (n : N) :
  length (giop.encode_u32 le n) = 4%nat.
Proof. unfold giop.encode_u32. now destruct le. Qed.

Lemma length_pack_giop (h : giop.GiopHeader) (body : bytes) :
  length (giop.pack_giop h body) = (12 + length body)%nat.
Proof.
  unfold giop.pack_giop, giop.pack_header.
  rewrite !length_app, length_encode_u32. reflexivity.
Qed.

(** C1, as the code has it.  A reply is not emitted at all: once it is
    read, line 49 raises NameError.  And what lines 79-81 build, for
    whatever body [repack_ior] gives them, is not [pack_giop] of the
    header with reply header and body: line 80 sets the size to the
    length of both, line 81 packs the body alone, so that the reply
    header is missing from the frame and the size in its header is not
    the length of what follows. *)
Theorem emitted_frame_omits_reply_header (s s' : state)
    (raw_header raw_data raw_body : bytes) (header : giop.GiopHeader) :
  reads_frame s raw_header header raw_data s' ->
  raw_data <> [] ->
  let raw_reply_header := take 12 raw_data in
  let header' :=
    giop.replace_size header
      (N.of_nat (length (raw_reply_header ++ raw_body))) in
  read_frame s = (Raise NameError, s')
  /\ emit header raw_reply_header raw_body = giop.pack_giop header' raw_body
  /\ emit header raw_reply_header raw_body
     <> giop.pack_giop header' (raw_reply_header ++ raw_body)
  /\ giop.size header' <> N.of_nat (length raw_body)
  /\ length (emit header raw_reply_header raw_body) = (12 + length raw_body)%nat.
Proof.
  intros Hread Hne raw_reply_header header'.
  assert (Hrh : (0 < length raw_reply_header)%nat).
  { subst raw_reply_header. destruct raw_data; [congruence|]. simpl. lia. }
  split; [exact (read_frame_name_error _ _ _ _ _ Hread)|].
  split; [reflexivity|]. split; [|split].
  - unfold emit. fold header'. unfold giop.pack_giop. intros Heq.
    apply app_inv_head in Heq.
    apply (f_equal length) in Heq. rewrite length_app in Heq. lia.
  - subst header'. simpl. rewrite length_app. lia.
  - unfold emit. apply length_pack_giop.
Qed.

(** C2, as the code has it.  A reply leaves the registry as it is: line
    49 raises before any listener is made.  And when lines 65-72 do make
    the listener for a key, the tuple they store is (server, port, host),
    which line 75 unpacks as (server, host, port): the IOR of line 76 has
    the port of the listener in its host field and the NUL-terminated
    bind address in its port field. *)
Theorem registry_tuple_is_unpacked_swapped (s s' : state)
    (raw_header raw_data : bytes) (header : giop.GiopHeader)
    (ior : giop.IOR) (key : string * pyval) (lp' : Loop) :
  reads_frame s raw_header header raw_data s' ->
  reachable (loop s) ->
  bind_and_store key (loop s) = (Ret tt, lp') ->
  let local_host := PBytes (encode (bind_address (loop s)) ++ [x00]) in
  read_frame s = (Raise NameError, s')
  /\ loop s' = loop s
  /\ exists (server : Server) (p : Z),
       forward_dict lp' !! key = Some (server, PInt p, local_host)
       /\ sockname server = (bind_address (loop s), p)
       /\ (0 < p < 65536)%Z
       /\ patch_ior ior (server, PInt p, local_host)
          = {| giop.host := PInt p; giop.port := local_host;
               giop.profile := giop.profile ior |}
       /\ giop.host (patch_ior ior (server, PInt p, local_host)) <> local_host
       /\ giop.port (patch_ior ior (server, PInt p, local_host)) <> PInt p.
Proof.
  intros Hread Hreach Hb local_host.
  pose proof (reads_frame_inv _ _ _ _ _ Hread) as (_ & _ & Hl & _).
  split; [exact (read_frame_name_error _ _ _ _ _ Hread)|].
  split; [exact Hl|].
  destruct (reachable_registry_ok _ Hreach) as [Hos _].
  apply bind_and_store_inv in Hb as (_ & _ & Hcase).
  destruct Hcase as [(_ & _ & Ho) | (server & p & _ & Hp & Hf & _ & _ & _ & Hsn)];
    [congruence|].
  exists server, p. rewrite Hf, lookup_insert_eq.
  unfold make_value. rewrite Hsn. simpl.
  split; [reflexivity|]. split; [reflexivity|]. split.
  - rewrite Hp in Hos. apply Forall_cons in Hos as [Hok _]. now apply Hok.
  - split; [reflexivity|]. split; discriminate.
Qed.


Lemma bind_and_store_failure (key : string * pyval) (lp : Loop) :
  (os_binds lp = [] \/ exists rest, os_binds lp = None :: rest) ->
  exists lp',
    bind_and_store key lp = (Raise OSError, lp')
    /\ forward_dict lp' = forward_dict lp
    /\ servers lp' = servers lp.
Proof.
  unfold bind_and_store, start_server.
  intros [Hos | [rest Hos]]; rewrite Hos; eexists; split; reflexivity || auto.
Qed.


(** ** Passes through lines 64-75 that overlap *)

Lemma bind_and_store_other (key other : string * pyval) (lp lp' : Loop)
    (o : outcome unit) :
  bind_and_store other lp = (o, lp') ->
  other <> key ->
  forward_dict lp' !! key = forward_dict lp !! key
  /\ listeners_for key lp' = listeners_for key lp.
Proof.
  intros H Hne. apply bind_and_store_inv in H as (_ & _ & Hcase).
  destruct Hcase as [(Hf & Hsv & _) | (server & p & _ & _ & Hf & Hsv & Hft & _)].
  - unfold listeners_for. now rewrite Hf, Hsv.
  - unfold listeners_for. rewrite Hf, Hsv, filter_app.
    rewrite lookup_insert_ne by exact Hne.
    rewrite (filter_singleton_False _ server []) by congruence.
    now rewrite app_nil_r.
Qed.

(** One step of the overlapping passes, for a key that is in the registry
    and for which no pass is suspended. *)
Lemma pass_step_settled (st : passes) (ev : pass_event) (key : string * pyval)
    (value : Server * pyval * pyval) :
  forward_dict (shared_loop st) !! key = Some value ->
  key ∉ suspended st ->
  let st' := pass_step st ev in
  forward_dict (shared_loop st') !! key = Some value
  /\ (key ∉ suspended st')
  /\ listeners_for key (shared_loop st') = listeners_for key (shared_loop st)
  /\ (exists new, returned st' = returned st ++ new
        /\ forall v, (key, v) ∈ new -> v = value).
Proof.
  intros Hin Hsusp. destruct ev as [k|i]; simpl.
  - destruct (forward_dict (shared_loop st) !! k) as [v|] eqn:Hk; simpl.
    + repeat split; try assumption. exists [(k, v)]. split; [reflexivity|].
      intros v' Hv'. apply list_elem_of_singleton in Hv'. congruence.
    + repeat split; try assumption.
      * intros Hel. apply elem_of_app in Hel as [?|Hel]; [contradiction|].
        apply list_elem_of_singleton in Hel. congruence.
      * exists []. split; [now rewrite app_nil_r|]. intros v Hv. inversion Hv.
  - destruct (suspended st !! i) as [k|] eqn:Hi.
    2:{ repeat split; try assumption. exists []. split; [now rewrite app_nil_r|].
        intros v Hv. inversion Hv. }
    assert (Hne : k <> key).
    { intros ->. apply Hsusp. eapply list_elem_of_lookup_2, Hi. }
    assert (Hdel : key ∉ delete i (suspended st)).
    { intros Hel. apply Hsusp. eapply elem_of_sublist; [exact Hel|].
      apply sublist_delete. }
    destruct (bind_and_store k (shared_loop st)) as [o lp'] eqn:Hb.
    destruct (bind_and_store_other key k _ _ _ Hb Hne) as [Hf Hl].
    destruct o as [[]|e|]; simpl.
    + repeat split; try congruence.
      destruct (forward_dict lp' !! k) as [v|].
      * exists [(k, v)]. split; [reflexivity|].
        intros v' Hv'. apply list_elem_of_singleton in Hv'. congruence.
      * exists []. split; [now rewrite app_nil_r|]. intros v Hv. inversion Hv.
    + repeat split; try congruence.
      exists []. split; [now rewrite app_nil_r|]. intros v Hv. inversion Hv.
    + repeat split; try congruence.
      exists []. split; [now rewrite app_nil_r|]. intros v Hv. inversion Hv.
Qed.

(** X19.  Once a tuple is stored for a key and no pass for that key is
    suspended in its [start_server], whatever passes run afterwards, on
    any connections and in any order, every pass for the key returns that
    tuple, no listener is made for the key, and the registry keeps that
    one tuple for it. *)
Theorem settled_key_keeps_its_entry (evs : list pass_event) (st : passes)
    (key : string * pyval) (value : Server * pyval * pyval) :
  forward_dict (shared_loop st) !! key = Some value ->
  key ∉ suspended st ->
  let st' := run_passes evs st in
  forward_dict (shared_loop st') !! key = Some value
  /\ (key ∉ suspended st')
  /\ listeners_for key (shared_loop st') = listeners_for key (shared_loop st)
  /\ (exists new, returned st' = returned st ++ new
        /\ forall v, (key, v) ∈ new -> v = value).
Proof.
  revert st. induction evs as [|ev evs IH]; intros st Hin Hsusp; simpl.
  - repeat split; try assumption. exists []. split; [now rewrite app_nil_r|].
    intros v Hv. inversion Hv.
  - destruct (pass_step_settled st ev key value Hin Hsusp)
      as (Hin1 & Hsusp1 & Hl1 & new1 & Hret1 & Hnew1).
    destruct (IH _ Hin1 Hsusp1) as (Hin2 & Hsusp2 & Hl2 & new2 & Hret2 & Hnew2).
    repeat split; try assumption; [congruence|].
    exists (new1 ++ new2). split.
    + unfold run_passes in *. simpl. rewrite Hret2, Hret1. now rewrite app_assoc.
    + intros v Hv. apply elem_of_app in Hv as [Hv|Hv]; auto.
Qed.

Lemma resume_binds (st : passes) (key : string * pyval)
    (before after : list (string * pyval)) (p : Z) (rest : list (option Z)) :
  suspended st = before ++ key :: after ->
  os_binds (shared_loop st) = Some p :: rest ->
  let lp := shared_loop st in
  let server := {| server_id := length (servers lp); forward_to := key;
                   bound_host := bind_address lp;
                   sockname := (bind_address lp, p) |} in
  pass_step st (Resume (length before)) =
    {| shared_loop :=
         store key (make_value server)
           {| bind_address := bind_address lp; forward_dict := forward_dict lp;
              servers := servers lp ++ [server]; os_binds := rest |};
       suspended := before ++ after;
       returned := returned st ++ [(key, make_value server)] |}.
Proof.
  intros Hsusp Hos lp server. subst lp server. simpl. rewrite Hsusp.
  rewrite list_lookup_middle by reflexivity.
  unfold bind_and_store, start_server. rewrite Hos.
  unfold finish. simpl. rewrite lookup_insert_eq, Hsusp.
  now rewrite delete_middle.
Qed.

(** C5, as the code has it.  The test of line 64 and the store of line 72
    are separated by the suspension of line 66.  When two passes for a
    key that is not in the registry both reach line 66 before either is
    resumed, the first to resume stores and returns its tuple, and a pass
    that starts then returns the same tuple.  When the second resumes it
    binds another listener and stores its own tuple over the first: a
    pass that starts after that, and so after the first return, gets a
    different tuple, and the loop has two listeners for the key. *)
Theorem overlapped_pass_replaces_the_entry (st : passes) (key : string * pyval)
    (p1 p2 : Z) (rest : list (option Z)) :
  forward_dict (shared_loop st) !! key = None ->
  os_binds (shared_loop st) = Some p1 :: Some p2 :: rest ->
  let lp := shared_loop st in
  let n := length (suspended st) in
  let server1 := {| server_id := length (servers lp); forward_to := key;
                    bound_host := bind_address lp;
                    sockname := (bind_address lp, p1) |} in
  let server2 := {| server_id := S (length (servers lp)); forward_to := key;
                    bound_host := bind_address lp;
                    sockname := (bind_address lp, p2) |} in
  let st3 := run_passes [Call key; Call key; Resume n] st in
  let st4 := pass_step st3 (Call key) in
  let st5 := pass_step st4 (Resume n) in
  let st6 := pass_step st5 (Call key) in
  returned st3 = returned st ++ [(key, make_value server1)]
  /\ returned st4 = returned st3 ++ [(key, make_value server1)]
  /\ returned st5 = returned st4 ++ [(key, make_value server2)]
  /\ returned st6 = returned st5 ++ [(key, make_value server2)]
  /\ make_value server1 <> make_value server2
  /\ listeners_for key (shared_loop st3) = listeners_for key lp ++ [server1]
  /\ listeners_for key (shared_loop st6)
     = listeners_for key lp ++ [server1; server2]
  /\ forward_dict (shared_loop st6) !! key = Some (make_value server2).
Proof.
  intros Hnew Hos lp n server1 server2 st3 st4 st5 st6.
  assert (E3 : st3 = {| shared_loop :=
                          store key (make_value server1)
                            {| bind_address := bind_address lp;
                               forward_dict := forward_dict lp;
                               servers := servers lp ++ [server1];
                               os_binds := Some p2 :: rest |};
                        suspended := suspended st ++ [key];
                        returned := returned st ++ [(key, make_value server1)] |}).
  { subst st3.
    change (run_passes [Call key; Call key; Resume n] st)
      with (pass_step (pass_step (pass_step st (Call key)) (Call key)) (Resume n)).
    assert (E2 : pass_step (pass_step st (Call key)) (Call key)
                 = {| shared_loop := lp; suspended := suspended st ++ [key; key];
                      returned := returned st |}).
    { assert (E1 : pass_step st (Call key)
                   = {| shared_loop := lp; suspended := suspended st ++ [key];
                        returned := returned st |}).
      { simpl. now rewrite Hnew. }
      rewrite E1. simpl. fold lp in Hnew. rewrite Hnew.
      now rewrite <- app_assoc. }
    rewrite E2. subst n.
    now rewrite (resume_binds
                   {| shared_loop := lp; suspended := suspended st ++ [key; key];
                      returned := returned st |}
                   key (suspended st) [key] p1 (Some p2 :: rest)). }
  assert (E4 : st4 = {| shared_loop := shared_loop st3; suspended := suspended st3;
                        returned := returned st3 ++ [(key, make_value server1)] |}).
  { subst st4. rewrite E3. simpl. now rewrite lookup_insert_eq. }
  assert (E5 : st5 = {| shared_loop :=
                          store key (make_value server2)
                            {| bind_address := bind_address lp;
                               forward_dict :=
                                 <[key := make_value server1]> (forward_dict lp);
                               servers := (servers lp ++ [server1]) ++ [server2];
                               os_binds := rest |};
                        suspended := suspended st;
                        returned := returned st4 ++ [(key, make_value server2)] |}).
  { subst st5. rewrite E4, E3. cbn [shared_loop suspended returned]. subst n.
    rewrite (resume_binds _ key (suspended st) [] p2 rest);
      [|reflexivity|reflexivity].
    cbn [shared_loop suspended returned store bind_address forward_dict servers
         os_binds].
    rewrite length_app, Nat.add_1_r, app_nil_r. reflexivity. }
  assert (E6 : st6 = {| shared_loop := shared_loop st5; suspended := suspended st5;
                        returned := returned st5 ++ [(key, make_value server2)] |}).
  { subst st6. rewrite E5. simpl. now rewrite lookup_insert_eq. }
  split; [now rewrite E3|]. split; [now rewrite E4|].
  split; [now rewrite E5|]. split; [now rewrite E6|].
  split; [intros [= Hid]; lia|].
  assert (Hone : forall server, forward_to server = key ->
            filter (fun sv => forward_to sv = key) [server] = [server]).
  { intros server Hft. now rewrite filter_cons_True. }
  split; [|split].
  - rewrite E3. unfold listeners_for. simpl.
    now rewrite filter_app, (Hone server1).
  - rewrite E6, E5. unfold listeners_for. simpl.
    rewrite !filter_app, (Hone server1), (Hone server2) by reflexivity.
    now rewrite <- app_assoc.
  - rewrite E6, E5. simpl. apply lookup_insert_eq.
Qed.

(** ** The statements on the concrete gateway *)

Module Checks.

Import Example.

(** C8 at a little-endian header. *)
Lemma pack_unpack_giop_round_trip_witness :
  exists h',
    giop.unpack_giop_header
      (take 12 (giop.pack_giop sample_header [x0a; x0b; x0c])) = inr h'
    /\ h' = sample_header
    /\ giop.pack_giop h' [x0a; x0b; x0c]
       = giop.pack_giop sample_header [x0a; x0b; x0c]
    /\ length (giop.pack_giop sample_header [x0a; x0b; x0c]) = (12 + 3)%nat.
Proof.
  apply (pack_unpack_giop_round_trip sample_header [x0a; x0b; x0c]).
  - reflexivity.
  - reflexivity.
Defined.

(** The reply of the scenario is read whole, whatever the operating
    system would answer to a bind. *)
Lemma reply_is_read (os : list (option Z)) :
  reads_frame (reply_state os) (take 12 (reply_frame xb2 x6e))
    reply_giop_header (reply_header ++ profile_of xb2 x6e)
    (rest_of [FeedEof] os).
Proof.
  eexists. split; [reflexivity|]. split; [discriminate|]. split; reflexivity.
Defined.

Lemma request_is_read :
  reads_frame (gateway [FeedData request_frame; FeedEof] []) request_frame
    request_giop_header [] (rest_of [FeedEof] []).
Proof.
  eexists. split; [reflexivity|]. split; [discriminate|]. split; reflexivity.
Defined.

(** C1 at the reply of the scenario, for the body as it came. *)
Lemma emitted_frame_omits_reply_header_witness :
  let s := reply_state [Some 50000%Z] in
  let raw_body := profile_of xb2 x6e in
  let header' := giop.replace_size reply_giop_header 29 in
  read_frame s = (Raise NameError, rest_of [FeedEof] [Some 50000%Z])
  /\ emit reply_giop_header reply_header raw_body
     = giop.pack_giop header' raw_body
  /\ emit reply_giop_header reply_header raw_body
     <> giop.pack_giop header' (reply_header ++ raw_body)
  /\ giop.size header' <> N.of_nat (length raw_body)
  /\ length (emit reply_giop_header reply_header raw_body) = (12 + 17)%nat.
Proof.
  apply (emitted_frame_omits_reply_header
           (reply_state [Some 50000%Z]) (rest_of [FeedEof] [Some 50000%Z])
           (take 12 (reply_frame xb2 x6e)) (reply_header ++ profile_of xb2 x6e)
           (profile_of xb2 x6e) reply_giop_header (reply_is_read _)).
  discriminate.
Defined.

(** C2 at the reply of the scenario, the listener getting port 50000. *)
Lemma registry_tuple_is_unpacked_swapped_witness :
  let s := reply_state [Some 50000%Z] in
  let lp' := snd (bind_and_store backend (loop s)) in
  let local_host := PBytes (encode "192.168.1.10" ++ [x00]) in
  read_frame s = (Raise NameError, rest_of [FeedEof] [Some 50000%Z])
  /\ loop (rest_of [FeedEof] [Some 50000%Z]) = loop s
  /\ exists (server : Server) (p : Z),
       forward_dict lp' !! backend = Some (server, PInt p, local_host)
       /\ sockname server = ("192.168.1.10"%string, p)
       /\ (0 < p < 65536)%Z
       /\ patch_ior found_ior (server, PInt p, local_host)
          = {| giop.host := PInt p; giop.port := local_host;
               giop.profile := giop.profile found_ior |}
       /\ giop.host (patch_ior found_ior (server, PInt p, local_host))
          <> local_host
       /\ giop.port (patch_ior found_ior (server, PInt p, local_host))
          <> PInt p.
Proof.
  apply (registry_tuple_is_unpacked_swapped
           (reply_state [Some 50000%Z]) (rest_of [FeedEof] [Some 50000%Z])
           (take 12 (reply_frame xb2 x6e)) (reply_header ++ profile_of xb2 x6e)
           reply_giop_header found_ior backend
           (snd (bind_and_store backend (loop (reply_state [Some 50000%Z]))))
           (reply_is_read _)).
  - apply reach_run_server.
    constructor; [intros q [= <-]; lia | constructor].
  - reflexivity.
Defined.

(** C3 at a Request without payload. *)
Lemma frame_ends_in_name_error_witness :
  let s := gateway [FeedData request_frame; FeedEof] [] in
  let s' := rest_of [FeedEof] [] in
  read_frame s = (Raise NameError, s')
  /\ inspect_pipe s = Some (Raise NameError, close s')
  /\ written (writer (close s')) = written (writer s)
  /\ pending (reader s) = (request_frame ++ []) ++ pending (reader s')
  /\ request_frame ++ [] <> [].
Proof.
  exact (frame_ends_in_name_error _ _ _ _ _ request_is_read).
Defined.

(** C4 at a Request of 16 octets that arrives as 14 and 2, and at five
    octets of a header followed by the end of file. *)
Lemma read_frame_takes_one_read_each_witness :
  let s := gateway [FeedData (take 14 request_with_payload);
                    FeedData (drop 14 request_with_payload); FeedEof] [] in
  let s' := rest_of [FeedData (drop 14 request_with_payload); FeedEof] [] in
  let t := gateway [FeedData (take 5 request_frame); FeedEof] [] in
  (reads_frame s (take 12 request_with_payload) request_with_payload_header
     [x01; x02] s'
   /\ N.of_nat (length [x01; x02]) < giop.size request_with_payload_header
   /\ read_frame s = (Raise NameError, s'))
  /\ (read_frame t = (Raise MalformedHeader, rest_of [FeedEof] [])
      /\ fst (read_frame t) <> Raise TruncatedFrame).
Proof.
  intros s s' t. split.
  - destruct (read_frame_takes_one_read_each s
                (FeedData (take 14 request_with_payload))
                [FeedData (drop 14 request_with_payload); FeedEof] eq_refl)
      as (_ & _ & Hpart).
    apply (Hpart (take 14 request_with_payload) request_with_payload_header
             eq_refl eq_refl).
    vm_compute. lia.
  - destruct (read_frame_takes_one_read_each t
                (FeedData (take 5 request_frame)) [FeedEof] eq_refl)
      as (_ & Hshort & _).
    apply (Hshort (take 5 request_frame) eq_refl).
    + discriminate.
    + vm_compute. lia.
Defined.

(** C5 at two connections that see an IOR for the backend of the
    scenario. *)
Lemma overlapped_pass_replaces_the_entry_witness :
  let first := make_value (listener 0 50000) in
  let second := make_value (listener 1 50001) in
  let st3 := run_passes [Call backend; Call backend; Resume 0]
               (start_passes two_ports) in
  let st4 := pass_step st3 (Call backend) in
  let st5 := pass_step st4 (Resume 0) in
  let st6 := pass_step st5 (Call backend) in
  returned st3 = returned (start_passes two_ports) ++ [(backend, first)]
  /\ returned st4 = returned st3 ++ [(backend, first)]
  /\ returned st5 = returned st4 ++ [(backend, second)]
  /\ returned st6 = returned st5 ++ [(backend, second)]
  /\ first <> second
  /\ listeners_for backend (shared_loop st3)
     = listeners_for backend two_ports ++ [listener 0 50000]
  /\ listeners_for backend (shared_loop st6)
     = listeners_for backend two_ports ++ [listener 0 50000; listener 1 50001]
  /\ forward_dict (shared_loop st6) !! backend = Some second.
Proof.
  apply (overlapped_pass_replaces_the_entry (start_passes two_ports) backend
           50000 50001 []); reflexivity.
Defined.

Lemma loop_with_backend_reachable : reachable loop_with_backend.
Proof.
  apply (reach_pass
           (pass_step (start_passes (initial_loop "192.168.1.10" [Some 50000%Z]))
              (Call backend))
           (Resume 0)).
  apply (reach_pass (start_passes (initial_loop "192.168.1.10" [Some 50000%Z]))
           (Call backend)).
  apply reach_run_server.
  constructor; [intros q [= <-]; lia | constructor].
Defined.

(** C6 at that loop. *)
Lemma registry_ports_and_bind_address_witness :
  (exists p, PInt 50000 = PInt p /\ p <> 0%Z /\ (0 < p < 65536)%Z
             /\ sockname (listener 0 50000) = (bind_address loop_with_backend, p))
  /\ bound_host (listener 0 50000) = bind_address loop_with_backend
  /\ listener 0 50000 ∈ servers loop_with_backend.
Proof.
  apply (registry_ports_and_bind_address loop_with_backend backend
           (listener 0 50000) (PInt 50000)
           (PBytes (encode "192.168.1.10" ++ [x00]))).
  - exact loop_with_backend_reachable.
  - reflexivity.
Defined.




End Checks.

(** * More of the gateway *)

(** ** A rule for the relay loops *)

Lemma while_not_at_eof_rule (P : state -> Prop) (Q : outcome unit -> state -> Prop)
    (body : coroutine bool) :
  (forall s, P s -> at_eof (reader s) = true -> Q (Ret tt) s) ->
  (forall s s', P s -> at_eof (reader s) = false ->
                body s = (Ret true, s') -> P s') ->
  (forall s s', P s -> at_eof (reader s) = false ->
                body s = (Ret false, s') -> Q (Ret tt) s') ->
  (forall s s' e, P s -> at_eof (reader s) = false ->
                  body s = (Raise e, s') -> Q (Raise e) s') ->
  (forall s s', P s -> at_eof (reader s) = false ->
                body s = (Blocked, s') -> Q Blocked s') ->
  forall fuel s o s',
    P s -> while_not_at_eof fuel body s = Some (o, s') -> Q o s'.
Proof.
  intros Hend Hgo Hbreak Hraise Hblock fuel.
  induction fuel as [|fuel IH]; intros s o s' HP; simpl; [discriminate|].
  destruct (at_eof (reader s)) eqn:Heof.
  { intros [= <- <-]. now apply Hend. }
  destruct (body s) as [[[|]|e|] s1] eqn:Hb.
  - apply IH. eapply Hgo; eauto.
  - intros [= <- <-]. eapply Hbreak; eauto.
  - intros [= <- <-]. eapply Hraise; eauto.
  - intros [= <- <-]. eapply Hblock; eauto.
Qed.

Lemma closing_inv (block : state -> option (outcome unit * state))
    (s s' : state) (o : outcome unit) :
  closing block s = Some (o, s') ->
  exists s1, block s = Some (o, s1)
    /\ reader s' = reader s1 /\ loop s' = loop s1
    /\ written (writer s') = written (writer s1)
    /\ (o <> Blocked -> closed (writer s') = true)
    /\ (o = Blocked -> s' = s1).
Proof.
  unfold closing. destruct (block s) as [[[[]|e|] s1]|]; intros [= <- <-];
    exists s1; repeat split; auto; try discriminate; try congruence.
Qed.

(** ** What the reads take, whatever their outcome *)

Lemma wait_for_data_pending_any (evs : list event) (o : outcome unit)
    (r : StreamReader) :
  wait_for_data evs = (o, r) -> concat (map event_data evs) = pending r.
Proof.
  revert o r. induction evs as [|ev evs IH]; intros o r; simpl.
  - now intros [= <- <-].
  - destruct ev as [[|b data]| |e]; simpl.
    + apply IH.
    + now intros [= <- <-].
    + now intros [= <- <-].
    + now intros [= <- <-].
Qed.

Lemma read_pending_any (n : N) (r r' : StreamReader) (o : outcome bytes) :
  read n r = (o, r') -> pending r = read_data o ++ pending r'.
Proof.
  destruct o as [data|e|]; [apply read_pending| |]; simpl.
  - unfold read. destruct (exception r); [now intros [= <- <-]|].
    destruct (n =? 0); [discriminate|].
    destruct (bool_decide (buffer r = []) && negb (eof r)) eqn:Hw;
      [|discriminate].
    apply andb_true_iff in Hw as [Hb _]. apply bool_decide_eq_true in Hb.
    destruct (wait_for_data (incoming r)) as [[[]| |] r1] eqn:Hwait;
      try discriminate.
    intros [= <- <-]. unfold pending at 1. rewrite Hb. simpl.
    now apply wait_for_data_pending_any in Hwait.
  - unfold read. destruct (exception r); [discriminate|].
    destruct (n =? 0); [discriminate|].
    destruct (bool_decide (buffer r = []) && negb (eof r)) eqn:Hw;
      [|discriminate].
    apply andb_true_iff in Hw as [Hb _]. apply bool_decide_eq_true in Hb.
    destruct (wait_for_data (incoming r)) as [[[]| |] r1] eqn:Hwait;
      try discriminate.
    intros [= <-]. unfold pending at 1. rewrite Hb. simpl.
    now apply wait_for_data_pending_any in Hwait.
Qed.

(** ** [forward_pipe] *)

Lemma forward_pipe_body_inv (s s' : state) (o : outcome bool) :
  forward_pipe_body s = (o, s') ->
  written (writer s') ++ pending (reader s')
    = written (writer s) ++ pending (reader s)
  /\ closed (writer s') = closed (writer s)
  /\ loop s' = loop s
  /\ o <> Ret false.
Proof.
  unfold forward_pipe_body.
  destruct (on_reader (read 4096) s) as [o1 s1] eqn:Hr.
  pose proof (on_reader_inv _ _ _ _ Hr) as (R & W & L).
  apply read_pending_any in R.
  destruct o1 as [data|e|].
  - rewrite (bind_Ret _ _ _ _ _ Hr). intros [= <- <-]. simpl.
    rewrite W, L, R. simpl. rewrite <- app_assoc. repeat split. discriminate.
  - rewrite (bind_Raise _ _ _ _ _ Hr). intros [= <- <-].
    rewrite W, L, R. repeat split. discriminate.
  - rewrite (bind_Blocked _ _ _ _ Hr). intros [= <- <-].
    rewrite W, L, R. repeat split. discriminate.
Qed.

Lemma forward_loop_ends (s : state) :
  exists o s1,
    while_not_at_eof (S (reader_size (reader s))) forward_pipe_body s
      = Some (o, s1).
Proof.
  apply while_not_at_eof_ends; [|lia].
  intros s0 s1 Heof Hb. unfold forward_pipe_body in Hb.
  destruct (on_reader (read 4096) s0) as [[data|e|] s2] eqn:Hr.
  - rewrite (bind_Ret _ _ _ _ _ Hr) in Hb. injection Hb as <-. simpl.
    apply on_reader_inv in Hr as (R & _ & _).
    apply read_size in R as [_ Hlt]. apply Hlt; eauto; discriminate.
  - now rewrite (bind_Raise _ _ _ _ _ Hr) in Hb.
  - now rewrite (bind_Blocked _ _ _ _ Hr) in Hb.
Qed.

Lemma forward_loop_keeps (fuel : nat) (s s1 : state) (o : outcome unit) :
  while_not_at_eof fuel forward_pipe_body s = Some (o, s1) ->
  written (writer s1) ++ pending (reader s1)
    = written (writer s) ++ pending (reader s)
  /\ loop s1 = loop s
  /\ (o = Ret tt -> at_eof (reader s1) = true).
Proof.
  intros Hw.
  set (P := fun t : state =>
              written (writer t) ++ pending (reader t)
                = written (writer s) ++ pending (reader s)
              /\ loop t = loop s).
  set (Q := fun (o : outcome unit) (t : state) =>
              P t /\ (o = Ret tt -> at_eof (reader t) = true)).
  assert (HQ : Q o s1).
  { apply (while_not_at_eof_rule P Q forward_pipe_body)
      with (fuel := fuel) (s := s);
      [ | | | | | split; reflexivity | exact Hw ].
    - intros t HP Heof. split; [exact HP|auto].
    - intros t t' [HP1 HP2] _ Hb.
      apply forward_pipe_body_inv in Hb as (H1 & _ & H2 & _).
      split; congruence.
    - intros t t' _ _ Hb. apply forward_pipe_body_inv in Hb as (_ & _ & _ & H).
      congruence.
    - intros t t' e [HP1 HP2] _ Hb.
      apply forward_pipe_body_inv in Hb as (H1 & _ & H2 & _).
      split; [split; congruence | discriminate].
    - intros t t' [HP1 HP2] _ Hb.
      apply forward_pipe_body_inv in Hb as (H1 & _ & H2 & _).
      split; [split; congruence | discriminate]. }
  destruct HQ as [[? ?] ?]. auto.
Qed.

(** X1. [forward_pipe] comes to an end, and whatever its outcome, what it
    has written is what it has taken from its reader, octet for octet and
    in order: written and pending octets together stay what they were.
    It leaves the loop as it is, and when it returns the reader is at end
    of file. *)
Theorem forward_pipe_keeps_the_octets (s : state) :
  exists o s',
    forward_pipe s = Some (o, s')
    /\ written (writer s') ++ pending (reader s')
       = written (writer s) ++ pending (reader s)
    /\ loop s' = loop s
    /\ (o = Ret tt -> at_eof (reader s') = true).
Proof.
  destruct (closing_closes _ s (forward_loop_ends s)) as (o & s' & Hc & _).
  exists o, s'. split; [exact Hc|].
  apply closing_inv in Hc as (s1 & Hw & Hr & Hl & Hwr & _).
  rewrite Hr, Hl, Hwr. exact (forward_loop_keeps _ _ _ _ Hw).
Qed.

(** ** Streams that come to their end *)

Lemma wait_for_data_ends (datas : list bytes) :
  exists r, wait_for_data (map FeedData datas ++ [FeedEof]) = (Ret tt, r)
            /\ ends_in_eof r.
Proof.
  induction datas as [|data datas IH]; simpl.
  - eexists. split; [reflexivity|]. split; reflexivity.
  - destruct data as [|b data]; [exact IH|].
    eexists. split; [reflexivity|]. split; [reflexivity|]. simpl. eauto.
Qed.

Lemma read_ends_in_eof (n : N) (r : StreamReader) :
  ends_in_eof r ->
  exists data r', read n r = (Ret data, r') /\ ends_in_eof r'.
Proof.
  intros [Hex Hin]. unfold read. rewrite Hex.
  destruct (n =? 0); [exists [], r; split; [reflexivity|split; assumption]|].
  assert (Ht : forall r0, ends_in_eof r0 ->
            exists data r', take_buffer n r0 = (Ret data, r') /\ ends_in_eof r').
  { intros r0 [H1 H2]. unfold take_buffer. eexists _, _.
    split; [reflexivity|]. split; assumption. }
  destruct (bool_decide (buffer r = []) && negb (eof r)) eqn:Hw.
  - apply andb_true_iff in Hw as [_ He]. apply negb_true_iff in He.
    rewrite He in Hin. destruct Hin as [datas ->].
    destruct (wait_for_data_ends datas) as (r1 & -> & Hr1). now apply Ht.
  - apply Ht. split; assumption.
Qed.

Lemma ends_in_eof_at_eof (r : StreamReader) :
  ends_in_eof r -> at_eof r = true -> pending r = [].
Proof.
  intros [_ Hin] Heof. unfold at_eof in Heof.
  apply andb_true_iff in Heof as [He Hb]. apply bool_decide_eq_true in Hb.
  rewrite He in Hin. unfold pending. now rewrite Hb, Hin.
Qed.

Lemma forward_loop_on_ending_stream (fuel : nat) (s s1 : state) (o : outcome unit) :
  ends_in_eof (reader s) ->
  while_not_at_eof fuel forward_pipe_body s = Some (o, s1) ->
  o = Ret tt /\ ends_in_eof (reader s1).
Proof.
  intros Hends Hw.
  assert (Hbody : forall t t' ob, ends_in_eof (reader t) ->
            forward_pipe_body t = (ob, t') ->
            ob = Ret true /\ ends_in_eof (reader t')).
  { intros t t' ob Ht. unfold forward_pipe_body.
    destruct (read_ends_in_eof 4096 _ Ht) as (data & r' & Hr & Hr').
    erewrite bind_Ret.
    2:{ unfold on_reader. rewrite Hr. reflexivity. }
    intros [= <- <-]. split; [reflexivity|exact Hr']. }
  apply (while_not_at_eof_rule (fun t => ends_in_eof (reader t))
           (fun o t => o = Ret tt /\ ends_in_eof (reader t)) forward_pipe_body)
    with (fuel := fuel) (s := s); [ | | | | | exact Hends | exact Hw ].
  - auto.
  - intros t t' Ht _ Hb. now destruct (Hbody _ _ _ Ht Hb).
  - intros t t' Ht _ Hb. now destruct (Hbody _ _ _ Ht Hb).
  - intros t t' e Ht _ Hb. now destruct (Hbody _ _ _ Ht Hb).
  - intros t t' Ht _ Hb. now destruct (Hbody _ _ _ Ht Hb).
Qed.

(** X2. On a stream that comes to its end (no exception, data followed by
    the end of file) [forward_pipe] returns, having written every octet of
    the stream, and its writer is closed. *)
Theorem forward_pipe_relays_the_stream (s : state) :
  ends_in_eof (reader s) ->
  exists s',
    forward_pipe s = Some (Ret tt, s')
    /\ written (writer s') = written (writer s) ++ pending (reader s)
    /\ pending (reader s') = []
    /\ closed (writer s') = true.
Proof.
  intros Hends.
  destruct (closing_closes _ s (forward_loop_ends s)) as (o & s' & Hc & _).
  pose proof (closing_inv _ _ _ _ Hc) as (s1 & Hw & Hr & Hl & Hwr & Hcl & _).
  destruct (forward_loop_on_ending_stream _ _ _ _ Hends Hw) as [-> Hends1].
  destruct (forward_loop_keeps _ _ _ _ Hw) as (Hkeep & _ & Heof).
  pose proof (ends_in_eof_at_eof _ Hends1 (Heof eq_refl)) as Hnil.
  exists s'. split; [exact Hc|].
  rewrite Hr, Hwr, Hnil. rewrite Hnil, app_nil_r in Hkeep.
  split; [exact Hkeep|]. split; [reflexivity|]. apply Hcl. discriminate.
Qed.

(** ** [forward] *)

(** X3. [forward] connects to the target first.  When the connection
    cannot be made it ends with that outcome and leaves the client's
    connection as it was, its writer not closed.  When it is made, what is
    taken from the client is what is written to the device server, and
    what is taken from the device server is what is written to the client;
    and when both streams come to their end, [forward] returns with every
    octet of each written to the other side and both writers closed. *)
Theorem forward_relays_both_ways
    (open_connection : string * pyval -> outcome (StreamReader * StreamWriter))
    (task1_first : bool) (target : string * pyval)
    (reader0 : StreamReader) (writer0 : StreamWriter) (lp : Loop) :
  match open_connection target with
  | Ret (ds_reader, ds_writer) =>
    exists o r ds_reader' ds_writer',
      forward open_connection task1_first target reader0 writer0 lp = Some (o, r)
      /\ device_server r = Some (ds_reader', ds_writer')
      /\ written ds_writer' ++ pending (client_reader r)
         = written ds_writer ++ pending reader0
      /\ written (client_writer r) ++ pending ds_reader'
         = written writer0 ++ pending ds_reader
      /\ (ends_in_eof reader0 -> ends_in_eof ds_reader ->
          o = Ret tt
          /\ written ds_writer' = written ds_writer ++ pending reader0
          /\ written (client_writer r) = written writer0 ++ pending ds_reader
          /\ closed ds_writer' = true
          /\ closed (client_writer r) = true)
  | Raise e =>
    forward open_connection task1_first target reader0 writer0 lp
      = Some (Raise e, {| client_reader := reader0; client_writer := writer0;
                          device_server := None |})
  | Blocked =>
    forward open_connection task1_first target reader0 writer0 lp
      = Some (Blocked, {| client_reader := reader0; client_writer := writer0;
                          device_server := None |})
  end.
Proof.
  unfold forward.
  destruct (open_connection target) as [[ds_reader ds_writer]|e|];
    [|reflexivity..].
  set (s1 := {| reader := reader0; writer := ds_writer; loop := lp |}).
  set (s2 := {| reader := ds_reader; writer := writer0; loop := lp |}).
  destruct (closing_closes _ s1 (forward_loop_ends s1)) as (o1 & t1 & Hc1 & _).
  destruct (closing_closes _ s2 (forward_loop_ends s2)) as (o2 & t2 & Hc2 & _).
  fold (forward_pipe s1) in Hc1. fold (forward_pipe s2) in Hc2.
  rewrite Hc1, Hc2.
  pose proof (closing_inv _ _ _ _ Hc1) as (u1 & Hw1 & Hr1 & _ & Hwr1 & Hcl1 & _).
  pose proof (closing_inv _ _ _ _ Hc2) as (u2 & Hw2 & Hr2 & _ & Hwr2 & Hcl2 & _).
  destruct (forward_loop_keeps _ _ _ _ Hw1) as (Hk1 & _ & He1).
  destruct (forward_loop_keeps _ _ _ _ Hw2) as (Hk2 & _ & He2).
  eexists _, _, _, _. split; [reflexivity|]. split; [reflexivity|]. simpl.
  rewrite Hr1, Hwr1, Hr2, Hwr2. split; [exact Hk1|]. split; [exact Hk2|].
  intros Hends1 Hends2.
  destruct (forward_loop_on_ending_stream _ s1 _ _ Hends1 Hw1) as [-> Hu1].
  destruct (forward_loop_on_ending_stream _ s2 _ _ Hends2 Hw2) as [-> Hu2].
  pose proof (ends_in_eof_at_eof _ Hu1 (He1 eq_refl)) as Hn1.
  pose proof (ends_in_eof_at_eof _ Hu2 (He2 eq_refl)) as Hn2.
  rewrite Hn1, app_nil_r in Hk1. rewrite Hn2, app_nil_r in Hk2.
  split; [reflexivity|]. split; [exact Hk1|]. split; [exact Hk2|].
  split; [apply Hcl1|apply Hcl2]; discriminate.
Qed.

(** ** The registry key *)

(** X9. The key is made of the host without its last octet, whatever that
    octet is: two IORs with the same port whose hosts differ in the last
    octet only have the same key, and an empty host gives the empty
    name. *)
Theorem last_octet_is_not_in_the_key (ior1 ior2 : giop.IOR) (host : bytes)
    (x y : byte) :
  giop.host ior1 = PBytes (host ++ [x]) ->
  giop.host ior2 = PBytes (host ++ [y]) ->
  giop.port ior2 = giop.port ior1 ->
  ior_key ior2 = ior_key ior1
  /\ ior_key ior1
     = match decode host with
       | inr name => inr (name, giop.port ior1)
       | inl e => inl e
       end
  /\ ior_key {| giop.host := PBytes []; giop.port := giop.port ior1;
                giop.profile := giop.profile ior1 |}
     = inr (""%string, giop.port ior1).
Proof.
  intros H1 H2 Hp. unfold ior_key, host_name.
  rewrite H1, H2, Hp, !all_but_last_snoc. auto.
Qed.

(** ** [inspect_pipe] over a whole stream *)

Lemma inspect_loop_ends (s : state) :
  exists o s1,
    while_not_at_eof (S (reader_size (reader s))) inspect_pipe_body s
      = Some (o, s1).
Proof.
  apply while_not_at_eof_ends; [|lia].
  intros s0 s1 Heof. unfold inspect_pipe_body.
  destruct (read_frame s0) as [[data|e|] s2] eqn:Hr.
  - rewrite (bind_Ret _ _ _ _ _ Hr).
    destruct (bool_decide (data = [])); [discriminate|].
    intros [= <-]. simpl.
    apply read_frame_size in Hr as [_ Hlt]. apply Hlt; eauto.
  - now rewrite (bind_Raise _ _ _ _ _ Hr).
  - now rewrite (bind_Blocked _ _ _ _ Hr).
Qed.

(** X10. A header that does not unpack ends the pipe: [read_frame] raises
    the error of [unpack_giop_header], nothing is written for the octets
    read, the writer is closed and the registry is as it was. *)
Theorem malformed_header_ends_the_pipe (s s1 : state) (raw_header : bytes)
    (e : exn) :
  on_reader (read 12) s = (Ret raw_header, s1) ->
  raw_header <> [] ->
  giop.unpack_giop_header raw_header = inl e ->
  read_frame s = (Raise e, s1)
  /\ inspect_pipe s = Some (Raise e, close s1)
  /\ written (writer s1) = written (writer s)
  /\ loop s1 = loop s.
Proof.
  intros H1 Hne Hun.
  pose proof (on_reader_inv _ _ _ _ H1) as (R1 & W1 & L1).
  assert (Hframe : read_frame s = (Raise e, s1)).
  { unfold read_frame. rewrite (bind_Ret _ _ _ _ _ H1).
    rewrite bool_decide_eq_false_2 by exact Hne. now rewrite Hun. }
  split; [exact Hframe|]. split; [|split; congruence].
  unfold inspect_pipe, closing. simpl.
  rewrite (read_some_not_at_eof _ _ _ _ R1 Hne).
  unfold inspect_pipe_body. now rewrite (bind_Raise _ _ _ _ _ Hframe).
Qed.

(** One turn of the loop of [inspect_pipe] writes nothing and is the
    last: it raises, stays suspended, or leaves the loop by [break] with
    the reader at end of file. *)
Lemma inspect_pipe_body_inv (s s' : state) (o : outcome bool) :
  inspect_pipe_body s = (o, s') ->
  loop s' = loop s /\ writer s' = writer s
  /\ o <> Ret true
  /\ (o = Ret false ->
      pending (reader s') = pending (reader s) /\ at_eof (reader s') = true).
Proof.
  unfold inspect_pipe_body.
  destruct (read_frame s) as [o1 s1] eqn:Hrf.
  destruct (read_frame_inv _ _ _ Hrf) as (Hl & Hw & Hd).
  destruct o1 as [data|e|].
  - rewrite (bind_Ret _ _ _ _ _ Hrf).
    destruct (Hd data eq_refl) as (-> & Hp & Heof).
    rewrite bool_decide_eq_true_2 by reflexivity.
    intros [= <- <-]. repeat split; auto; discriminate.
  - rewrite (bind_Raise _ _ _ _ _ Hrf). intros [= <- <-].
    repeat split; auto; discriminate.
  - rewrite (bind_Blocked _ _ _ _ Hrf). intros [= <- <-].
    repeat split; auto; discriminate.
Qed.

Lemma inspect_loop_keeps (fuel : nat) (s s1 : state) (o : outcome unit) :
  while_not_at_eof fuel inspect_pipe_body s = Some (o, s1) ->
  loop s1 = loop s /\ writer s1 = writer s
  /\ (o = Ret tt ->
      pending (reader s1) = pending (reader s) /\ at_eof (reader s1) = true).
Proof.
  destruct fuel as [|fuel]; simpl; [discriminate|].
  destruct (at_eof (reader s)) eqn:Heof.
  { intros [= <- <-]. auto. }
  destruct (inspect_pipe_body s) as [ob s2] eqn:Hb.
  destruct (inspect_pipe_body_inv _ _ _ Hb) as (Hl & Hw & Hgo & Hbreak).
  destruct ob as [[|]|e|]; [congruence| | |]; intros [= <- <-].
  - destruct (Hbreak eq_refl). auto.
  - repeat split; auto; discriminate.
  - repeat split; auto; discriminate.
Qed.

Section WithoutIor.

Context {codec : giop.Codec}.


End WithoutIor.

(** X18.  [inspect_pipe] never writes: it comes to an end, and however
    it ends its writer has received nothing and the loop is as it was.
    It returns only when its reader was at end of file before the first
    octet of a header, and has then taken no octet from the stream. *)
Theorem inspect_pipe_writes_nothing (s : state) :
  exists o s',
    inspect_pipe s = Some (o, s')
    /\ written (writer s') = written (writer s)
    /\ loop s' = loop s
    /\ (o = Ret tt ->
        pending (reader s') = pending (reader s)
        /\ at_eof (reader s') = true).
Proof.
  destruct (closing_closes _ s (inspect_loop_ends s)) as (o & s' & Hc & _).
  exists o, s'. split; [exact Hc|].
  apply closing_inv in Hc as (s1 & Hw & Hr & Hl & Hwr & _).
  destruct (inspect_loop_keeps _ _ _ _ Hw) as (Hl1 & Hw1 & Hret).
  rewrite Hwr, Hl, Hr, Hw1. auto.
Qed.

(** ** The registry over the life of the gateway *)

Lemma bind_and_store_new_key (key : string * pyval) (lp lp' : Loop)
    (o : outcome unit) :
  forward_dict lp !! key = None ->
  bind_and_store key lp = (o, lp') ->
  bind_address lp' = bind_address lp
  /\ (forall k v, forward_dict lp !! k = Some v -> forward_dict lp' !! k = Some v)
  /\ (exists new, servers lp' = servers lp ++ new /\ (length new <= 1)%nat)
  /\ (all_listeners_stored lp -> all_listeners_stored lp').
Proof.
  intros Hnew H. apply bind_and_store_inv in H as (Hb & _ & Hcase).
  split; [exact Hb|].
  destruct Hcase as [(Hf & Hsv & _) | (server & p & _ & _ & Hf & Hsv & Hft & _)].
  - rewrite Hf, Hsv. split; [auto|]. split.
    + exists []. rewrite app_nil_r. simpl. auto.
    + intros Hall sv Hin. unfold all_listeners_stored in Hall.
      rewrite Hf. apply Hall. now rewrite <- Hsv.
  - split; [|split].
    + intros k v Hk. rewrite Hf. rewrite lookup_insert_ne; [exact Hk|].
      intros <-. congruence.
    + exists [server]. simpl. auto.
    + intros Hall sv Hin. rewrite Hf. rewrite Hsv in Hin.
      apply elem_of_app in Hin as [Hin|Hin].
      * rewrite lookup_insert_ne; [now apply Hall|].
        intros Heq. specialize (Hall sv Hin). congruence.
      * apply list_elem_of_singleton in Hin. subst sv.
        rewrite Hft. apply lookup_insert_eq.
Qed.

Lemma pass_in_turn_loop (lp : Loop) (key : string * pyval) :
  let lp' := shared_loop (run_passes [Call key; Resume 0] (start_passes lp)) in
  lp' = lp
  \/ (forward_dict lp !! key = None
      /\ exists o, bind_and_store key lp = (o, lp')).
Proof.
  intros lp'. subst lp'.
  change (run_passes [Call key; Resume 0] (start_passes lp))
    with (pass_step (pass_step (start_passes lp) (Call key)) (Resume 0)).
  assert (E1 : pass_step (start_passes lp) (Call key)
               = match forward_dict lp !! key with
                 | Some value =>
                   {| shared_loop := lp; suspended := [];
                      returned := [(key, value)] |}
                 | None =>
                   {| shared_loop := lp; suspended := [key]; returned := [] |}
                 end) by reflexivity.
  rewrite E1. destruct (forward_dict lp !! key) as [value|] eqn:Hk.
  - left. reflexivity.
  - right. split; [reflexivity|]. simpl.
    destruct (bind_and_store key lp) as [[[]|e|] lp1]; eexists; reflexivity.
Qed.

Lemma reachable_in_turn_stored (lp : Loop) :
  reachable_in_turn lp -> all_listeners_stored lp.
Proof.
  induction 1 as [bind os | s s' o _ IH Hrf | lp key _ IH].
  - intros server Hin. simpl in Hin. inversion Hin.
  - apply read_frame_inv in Hrf as (-> & _). exact IH.
  - destruct (pass_in_turn_loop lp key) as [-> | (Hnew & o & Hb)]; [exact IH|].
    now apply (bind_and_store_new_key _ _ _ _ Hnew Hb).
Qed.

(** X13. When no pass through lines 64-75 overlaps another, every
    listener the loop has made is the one stored for its backend, and is
    among the servers [run_server] closes at the end. *)
Theorem in_turn_every_listener_is_closed (lp : Loop) (root server : Server) :
  reachable_in_turn lp ->
  server ∈ servers lp ->
  forward_dict lp !! forward_to server = Some (make_value server)
  /\ server ∈ servers_to_close lp root.
Proof.
  intros Hreach Hin.
  pose proof (reachable_in_turn_stored _ Hreach server Hin) as Hstored.
  split; [exact Hstored|].
  unfold servers_to_close. apply elem_of_app. left.
  apply list_elem_of_fmap.
  exists (forward_to server, make_value server). split; [reflexivity|].
  now apply elem_of_map_to_list.
Qed.

Lemma reachable_forward_to (lp : Loop) :
  reachable lp ->
  forall key server port host,
    forward_dict lp !! key = Some (server, port, host) -> forward_to server = key.
Proof.
  assert (Hstep : forall k lp0 lp1 o,
            (forall key server port host,
               forward_dict lp0 !! key = Some (server, port, host) ->
               forward_to server = key) ->
            bind_and_store k lp0 = (o, lp1) ->
            forall key server port host,
              forward_dict lp1 !! key = Some (server, port, host) ->
              forward_to server = key).
  { intros k lp0 lp1 o IH Hb key server port host.
    apply bind_and_store_inv in Hb as (_ & _ & Hcase).
    destruct Hcase as [(Hf & _ & _) | (sv & p & _ & _ & Hf & _ & Hft & _)];
      rewrite Hf.
    - apply IH.
    - destruct (decide (k = key)) as [->|Hne].
      + rewrite lookup_insert_eq. unfold make_value. now intros [= <- _ _].
      + rewrite lookup_insert_ne by exact Hne. apply IH. }
  induction 1 as [bind os Hos | s s' o _ IH Hrf | st ev _ IH].
  - intros key server port host Hk. simpl in Hk. now rewrite lookup_empty in Hk.
  - apply read_frame_inv in Hrf as (-> & _). exact IH.
  - destruct (pass_step_loop st ev) as [-> | (k & o' & Hb)];
      [exact IH|]. exact (Hstep _ _ _ _ IH Hb).
Qed.

(** X14. In every loop the gateway can reach, passes overlapping or not,
    the listener stored for a key forwards to the host and port of that
    key. *)
Theorem registered_listener_forwards_to_its_key (lp : Loop)
    (key : string * pyval) (server : Server) (port host : pyval) :
  reachable lp ->
  forward_dict lp !! key = Some (server, port, host) ->
  forward_to server = key.
Proof. intros Hreach. now apply reachable_forward_to. Qed.

(** X15. At the end [run_server] closes the server of the gateway and
    the listener of every tuple of the registry, one server for each
    key. *)
Theorem shutdown_closes_the_registry (lp : Loop) (root : Server) :
  root ∈ servers_to_close lp root
  /\ (forall key server port host,
        forward_dict lp !! key = Some (server, port, host) ->
        server ∈ servers_to_close lp root)
  /\ length (servers_to_close lp root) = S (size (forward_dict lp)).
Proof.
  unfold servers_to_close. split; [|split].
  - apply elem_of_app. right. now apply list_elem_of_singleton.
  - intros key server port host Hk. apply elem_of_app. left.
    apply list_elem_of_fmap. exists (key, (server, port, host)).
    split; [reflexivity|]. now apply elem_of_map_to_list.
  - rewrite length_app, length_map, length_map_to_list. simpl. lia.
Qed.

(** ** Passes that overlap *)

(** X16. Two passes for a key that is not in the registry, both started
    before either is resumed, bind a listener each: the loop has two
    listeners for the key, each pass returns its own tuple, and the
    registry keeps that of the pass resumed last. *)
Theorem overlapping_passes_bind_twice (st : passes) (key : string * pyval)
    (p1 p2 : Z) (rest : list (option Z)) :
  forward_dict (shared_loop st) !! key = None ->
  os_binds (shared_loop st) = Some p1 :: Some p2 :: rest ->
  let lp := shared_loop st in
  let n := length (suspended st) in
  let server1 := {| server_id := length (servers lp); forward_to := key;
                    bound_host := bind_address lp;
                    sockname := (bind_address lp, p1) |} in
  let server2 := {| server_id := S (length (servers lp)); forward_to := key;
                    bound_host := bind_address lp;
                    sockname := (bind_address lp, p2) |} in
  let st' := run_passes [Call key; Call key; Resume n; Resume n] st in
  returned st'
    = returned st ++ [(key, make_value server1); (key, make_value server2)]
  /\ forward_dict (shared_loop st') !! key = Some (make_value server2)
  /\ servers (shared_loop st') = servers lp ++ [server1; server2]
  /\ suspended st' = suspended st
  /\ server1 <> server2.
Proof.
  intros Hnew Hos lp n server1 server2 st'.
  subst st'.
  change (run_passes [Call key; Call key; Resume n; Resume n] st)
    with (pass_step (pass_step (pass_step (pass_step st (Call key)) (Call key))
                       (Resume n)) (Resume n)).
  set (st1 := pass_step st (Call key)).
  assert (E1 : st1 = {| shared_loop := lp; suspended := suspended st ++ [key];
                        returned := returned st |}).
  { subst st1. simpl. now rewrite Hnew. }
  set (st2 := pass_step st1 (Call key)).
  assert (E2 : st2 = {| shared_loop := lp;
                        suspended := suspended st ++ [key; key];
                        returned := returned st |}).
  { subst st2. rewrite E1. simpl. fold lp in Hnew. rewrite Hnew.
    now rewrite <- app_assoc. }
  rewrite E2. subst n.
  rewrite (resume_binds
             {| shared_loop := lp; suspended := suspended st ++ [key; key];
                returned := returned st |}
             key (suspended st) [key] p1 (Some p2 :: rest));
    [|reflexivity|exact Hos].
  rewrite (resume_binds _ key (suspended st) [] p2 rest);
    [|reflexivity|reflexivity].
  simpl. rewrite lookup_insert_eq, length_app, app_nil_r. simpl.
  rewrite Nat.add_1_r, <- !app_assoc. simpl.
  repeat split. intros [= Hid]. lia.
Qed.

(** X17. However passes overlap, a key that is in the registry stays in
    it, and the listeners the loop has made are only added to. *)
Theorem passes_never_remove_a_key (evs : list pass_event) (st : passes) :
  (forall key, is_Some (forward_dict (shared_loop st) !! key) ->
               is_Some (forward_dict (shared_loop (run_passes evs st)) !! key))
  /\ exists new,
       servers (shared_loop (run_passes evs st)) = servers (shared_loop st) ++ new.
Proof.
  revert st. induction evs as [|ev evs IH]; intros st; simpl.
  - split; [auto|]. exists []. now rewrite app_nil_r.
  - destruct (IH (pass_step st ev)) as [IHk [new IHs]].
    assert (Hstep : (forall key, is_Some (forward_dict (shared_loop st) !! key) ->
                       is_Some (forward_dict (shared_loop (pass_step st ev)) !! key))
                    /\ exists new0, servers (shared_loop (pass_step st ev))
                                    = servers (shared_loop st) ++ new0).
    { destruct (pass_step_loop st ev) as [-> | (k & o & Hb)].
      - split; [auto|]. exists []. now rewrite app_nil_r.
      - apply bind_and_store_inv in Hb as (_ & _ & Hcase).
        destruct Hcase as [(Hf & Hsv & _) | (sv & p & _ & _ & Hf & Hsv & _)].
        + rewrite Hf, Hsv. split; [auto|]. exists []. now rewrite app_nil_r.
        + rewrite Hf, Hsv. split; [|eauto].
          intros key Hk. destruct (decide (k = key)) as [->|Hne].
          * rewrite lookup_insert_eq. eauto.
          * now rewrite lookup_insert_ne. }
    destruct Hstep as [Hk [new0 Hs]]. split.
    + intros key Hin. apply IHk, Hk, Hin.
    + exists (new0 ++ new). unfold run_passes in *. simpl. rewrite IHs, Hs.
      now rewrite app_assoc.
Qed.

(** ** The statements on concrete streams and loops *)

Module MoreChecks.

Import Example.

(** X2 at a stream of two chunks. *)
Lemma forward_pipe_relays_the_stream_witness :
  let s := gateway [FeedData [x01; x02]; FeedData [x03]; FeedEof] [] in
  exists s',
    forward_pipe s = Some (Ret tt, s')
    /\ written (writer s') = written (writer s) ++ pending (reader s)
    /\ pending (reader s') = []
    /\ closed (writer s') = true.
Proof.
  intros s. apply (forward_pipe_relays_the_stream s).
  split; [reflexivity|]. exists [[x01; x02]; [x03]]. reflexivity.
Defined.

(** X9 at two hosts that differ in the last octet. *)
Lemma last_octet_is_not_in_the_key_witness :
  let ior1 := {| giop.host := PBytes (encode "ab" ++ ["c"%byte]);
                 giop.port := PInt 1; giop.profile := [] |} in
  let ior2 := {| giop.host := PBytes (encode "ab" ++ ["d"%byte]);
                 giop.port := PInt 1; giop.profile := [] |} in
  ior_key ior2 = ior_key ior1
  /\ ior_key ior1
     = match decode (encode "ab") with
       | inr name => inr (name, giop.port ior1)
       | inl e => inl e
       end
  /\ ior_key {| giop.host := PBytes []; giop.port := giop.port ior1;
                giop.profile := giop.profile ior1 |}
     = inr (""%string, giop.port ior1).
Proof.
  intros ior1 ior2.
  apply (last_octet_is_not_in_the_key ior1 ior2 (encode "ab") "c"%byte "d"%byte);
    reflexivity.
Defined.

(** X10 at twelve octets without the magic. *)
Lemma malformed_header_ends_the_pipe_witness :
  let s := gateway [FeedData not_giop; FeedEof] [] in
  let s1 := rest_of [FeedEof] [] in
  read_frame s = (Raise MalformedHeader, s1)
  /\ inspect_pipe s = Some (Raise MalformedHeader, close s1)
  /\ written (writer s1) = written (writer s)
  /\ loop s1 = loop s.
Proof.
  intros s s1.
  apply (malformed_header_ends_the_pipe s s1 not_giop MalformedHeader).
  - reflexivity.
  - discriminate.
  - reflexivity.
Defined.


Lemma loop_with_backend_in_turn : reachable_in_turn loop_with_backend.
Proof.
  apply (in_turn_pass (initial_loop "192.168.1.10" [Some 50000%Z]) backend).
  apply in_turn_run_server.
Defined.

(** X13 at the loop one pass for the backend of the scenario leaves
    behind. *)
Lemma in_turn_every_listener_is_closed_witness :
  forward_dict loop_with_backend !! forward_to (listener 0 50000)
    = Some (make_value (listener 0 50000))
  /\ listener 0 50000 ∈ servers_to_close loop_with_backend (listener 7 8000).
Proof.
  apply (in_turn_every_listener_is_closed loop_with_backend
           (listener 7 8000) (listener 0 50000) loop_with_backend_in_turn).
  apply list_elem_of_singleton. reflexivity.
Defined.

Lemma loop_with_backend_is_reachable : reachable loop_with_backend.
Proof.
  apply (reach_pass
           (pass_step (start_passes (initial_loop "192.168.1.10" [Some 50000%Z]))
              (Call backend))
           (Resume 0)).
  apply (reach_pass (start_passes (initial_loop "192.168.1.10" [Some 50000%Z]))
           (Call backend)).
  apply reach_run_server.
  constructor; [intros q [= <-]; lia | constructor].
Defined.

(** X14 at the same loop. *)
Lemma registered_listener_forwards_to_its_key_witness :
  forward_to (listener 0 50000) = backend.
Proof.
  apply (registered_listener_forwards_to_its_key loop_with_backend
           backend (listener 0 50000) (PInt 50000)
           (PBytes (encode "192.168.1.10" ++ [x00]))).
  - exact loop_with_backend_is_reachable.
  - reflexivity.
Defined.

(** X16 at two passes for the backend of the scenario. *)
Lemma overlapping_passes_bind_twice_witness :
  let st := start_passes two_ports in
  let st' := run_passes [Call backend; Call backend; Resume 0; Resume 0] st in
  returned st'
    = returned st ++ [(backend, make_value (listener 0 50000));
                      (backend, make_value (listener 1 50001))]
  /\ forward_dict (shared_loop st') !! backend
     = Some (make_value (listener 1 50001))
  /\ servers (shared_loop st')
     = servers two_ports ++ [listener 0 50000; listener 1 50001]
  /\ suspended st' = suspended st
  /\ listener 0 50000 <> listener 1 50001.
Proof.
  apply (overlapping_passes_bind_twice (start_passes two_ports) backend
           50000 50001 []); reflexivity.
Defined.

(** X19 after one pass that was not overlapped. *)
Lemma settled_key_keeps_its_entry_witness :
  let st := run_passes [Call backend; Resume 0] (start_passes two_ports) in
  let st' := run_passes [Call backend; Call other_backend; Call backend;
                         Resume 0; Call backend] st in
  forward_dict (shared_loop st') !! backend = Some (make_value (listener 0 50000))
  /\ (backend ∉ suspended st')
  /\ listeners_for backend (shared_loop st') = listeners_for backend (shared_loop st)
  /\ (exists new, returned st' = returned st ++ new
        /\ forall v, (backend, v) ∈ new -> v = make_value (listener 0 50000)).
Proof.
  intros st st'.
  apply (settled_key_keeps_its_entry
           [Call backend; Call other_backend; Call backend; Resume 0;
            Call backend] st backend (make_value (listener 0 50000))).
  - reflexivity.
  - apply not_elem_of_nil.
Defined.

End MoreChecks.
